(** * Job-Analytics-Pipeline: the transformation stage ([src/transformer.py])

    A shallow embedding of the transformer of the job-analytics ETL
    pipeline, and the properties its specification states about it.

    Modelling conventions.

    - A Python [str] is a [text]: the list of the bytes of its UTF-8
      encoding.  Substring tests on well-formed UTF-8 agree with substring
      tests on code points, and the byte-wise lexicographic order agrees
      with the code-point order Python sorts by.  Case mapping and the
      character classes of [re] ([\d], [\s], [\b]) and of [str.strip] are
      those Python applies to the ASCII characters; bytes above 127 are
      left alone by [lower] and belong to no class.
    - A Python [float] obtained from a decimal literal is the rational the
      literal denotes, and [v * 1000.0] is exact: binary64 rounding is not
      modelled (it is monotone, so the order of two values is kept).
    - A field of a raw record is a [value]: JSON null, the NaN pandas puts
      in an empty CSV cell, an integer, or a text.  Calls that raise
      [TypeError] or [AttributeError] on a value of the wrong type return
      [Err].
    - [pandas] and [dateutil] are libraries outside the repository; the
      few operations used are modelled from their documented behaviour,
      each at the place where it is used.
    - A theorem whose conclusion depends on one of these conventions
      carries the hypothesis under which the embedding and Python agree:
      [ascii_text] for the character classes and the case mapping,
      [binary64] for the numbers, [small_ids] for the identifiers of a
      frame. *)

From Stdlib Require Import ZArith QArith Qminmax List Ascii String Bool Lia.
From stdpp Require Import gmap strings list sorting.

Local Open Scope list_scope.

(* ================================================================== *)
(** * Text: Python strings *)
(* ================================================================== *)

Module PyStr.

Abbreviation text := (list ascii).

(** A literal of the source, as a text. *)
Definition str (s : string) : text := list_ascii_of_string s.

Definition code (c : ascii) : N := N_of_ascii c.

Definition in_range (lo hi : N) (c : ascii) : bool :=
  ((lo <=? code c) && (code c <=? hi))%N.

Definition is_upper : ascii -> bool := in_range 65 90.
Definition is_lower : ascii -> bool := in_range 97 122.
Definition is_digit : ascii -> bool := in_range 48 57.
Definition is_alpha (c : ascii) : bool := is_upper c || is_lower c.

(** [\w]: letters, digits and the underscore. *)
Definition is_word (c : ascii) : bool :=
  is_alpha c || is_digit c || (code c =? 95)%N.

(** [str.isspace] on ASCII: TAB, LF, VT, FF, CR, FS, GS, RS, US and the
    space.  [str.strip()] and the [\s] of [re] use the same set. *)
Definition is_space (c : ascii) : bool :=
  in_range 9 13 c || in_range 28 31 c || (code c =? 32)%N.

Definition lower_char (c : ascii) : ascii :=
  if is_upper c then ascii_of_N (code c + 32) else c.

Definition upper_char (c : ascii) : ascii :=
  if is_lower c then ascii_of_N (code c - 32) else c.

(** [s.lower()] *)
Definition lower (s : text) : text := map lower_char s.

(** [s.startswith(p)] *)
Fixpoint starts_with (p s : text) : bool :=
  match p, s with
  | [], _ => true
  | _ :: _, [] => false
  | a :: p', b :: s' => Ascii.eqb a b && starts_with p' s'
  end.

(** [k in t] *)
Fixpoint contains (k t : text) : bool :=
  starts_with k t ||
  match t with
  | [] => false
  | _ :: t' => contains k t'
  end.

(** [s.lstrip()], [s.rstrip()], [s.strip()] *)
Fixpoint lstrip (s : text) : text :=
  match s with
  | c :: s' => if is_space c then lstrip s' else s
  | [] => []
  end.

Definition rstrip (s : text) : text := rev (lstrip (rev s)).

Definition strip (s : text) : text := rstrip (lstrip s).

(** [s.replace(",", "")] and the like: every occurrence of one character
    removed. *)
Definition remove_char (c : ascii) (s : text) : text :=
  List.filter (fun x => negb (Ascii.eqb x c)) s.

(** The order Python compares strings by. *)
Fixpoint text_compare (a b : text) : comparison :=
  match a, b with
  | [], [] => Eq
  | [], _ :: _ => Lt
  | _ :: _, [] => Gt
  | x :: a', y :: b' =>
      match N.compare (code x) (code y) with
      | Eq => text_compare a' b'
      | o => o
      end
  end.

Definition text_leb (a b : text) : bool :=
  match text_compare a b with Gt => false | _ => true end.

(** [sep.join(parts)] *)
Fixpoint join (sep : text) (parts : list text) : text :=
  match parts with
  | [] => []
  | [p] => p
  | p :: rest => p ++ sep ++ join sep rest
  end.

End PyStr.
Export PyStr.

(* ================================================================== *)
(** * Python values, truthiness and exceptions *)
(* ================================================================== *)

Module Py.

(** What a field of a raw record may hold. *)
Inductive value : Type :=
  | VNone                (* JSON null, or a key that is absent *)
  | VNaN                 (* the float NaN pandas reads from an empty cell *)
  | VInt (z : Z)
  | VStr (s : text).

#[global] Instance value_eq_dec : EqDecision value.
Proof. solve_decision. Defined.

(** [bool(v)]: None, 0 and the empty string are false; NaN is true. *)
Definition truthy (v : value) : bool :=
  match v with
  | VNone => false
  | VNaN => true
  | VInt z => negb (z =? 0)%Z
  | VStr s => match s with [] => false | _ => true end
  end.

(** [a or b] *)
Definition por (a b : value) : value := if truthy a then a else b.

(** [pd.isna(v)] *)
Definition isna (v : value) : bool :=
  match v with
  | VNone | VNaN => true
  | _ => false
  end.

Inductive exn : Type := TypeError | AttributeError | ValueError | KeyError.

Inductive result (A : Type) : Type :=
  | Ok (a : A)
  | Err (e : exn).
Arguments Ok {A} a.
Arguments Err {A} e.

Definition bind {A B : Type} (m : result A) (k : A -> result B) : result B :=
  match m with
  | Ok a => k a
  | Err e => Err e
  end.

Notation "'let*' x ':=' m 'in' k" := (bind m (fun x => k))
  (at level 10, x name, m at level 100, k at level 200).

(** A loop that builds a list and stops at the first exception. *)
Fixpoint mapM {A B : Type} (f : A -> result B) (l : list A) : result (list B) :=
  match l with
  | [] => Ok []
  | a :: l' => let* b := f a in let* bs := mapM f l' in Ok (b :: bs)
  end.

(** A loop that threads an accumulator and stops at the first exception. *)
Fixpoint foldM {A S : Type} (f : S -> A -> result S) (l : list A) (s : S)
  : result S :=
  match l with
  | [] => Ok s
  | a :: l' => let* s' := f s a in foldM f l' s'
  end.

(** A raw record: a dict with string keys.  [r.get(k)] is [None] for a
    missing key. *)
Definition get (r : gmap string value) (k : string) : value :=
  default VNone (r !! k).

End Py.
Export Py.

(* ================================================================== *)
(** * The transformer *)
(* ================================================================== *)

Module Transformer.

Local Open Scope char_scope.

Definition CR : ascii := "013".
Definition LF : ascii := "010".

Definition is_lf (c : ascii) : bool := Ascii.eqb c LF.

(** ** Vocabularies *)

Definition COMMON_SKILLS : list text :=
  map str
    ["python"; "sql"; "aws"; "docker"; "kubernetes"; "pandas"; "spark";
     "tensorflow"; "pytorch"; "scikit-learn"; "excel"; "tableau";
     "powerbi"; "java"; "scala"; "r"; "javascript"]%string.

(** A Python dict iterates in insertion order: an association list. *)
Definition SENIORITY_MAP : list (text * text) :=
  map (fun kv : string * string => (str kv.1, str kv.2))
    [("senior", "senior"); ("sr.", "senior"); ("lead", "senior");
     ("principal", "senior"); ("staff", "senior"); ("junior", "junior");
     ("jr.", "junior"); ("intern", "intern"); ("manager", "manager")]%string.

(** ** clean_text *)

(** [re.sub(r"\r\n", "\n", s)]: scanning from the left, each CR that is
    followed by LF is replaced, with that LF, by one LF. *)
Fixpoint sub_crlf (s : text) : text :=
  match s with
  | [] => []
  | c :: s' =>
      match s' with
      | d :: s'' =>
          if Ascii.eqb c CR && Ascii.eqb d LF then LF :: sub_crlf s''
          else c :: sub_crlf s'
      | [] => [c]
      end
  end.

(** [re.sub(cls + "+", rep, s)] for a character class [cls]: each maximal
    run of characters of the class is replaced by [rep].  [in_run] says
    that the character before belongs to a run already replaced. *)
Fixpoint sub_runs (cls : ascii -> bool) (rep : ascii) (in_run : bool)
  (s : text) : text :=
  match s with
  | [] => []
  | c :: s' =>
      if cls c then
        if in_run then sub_runs cls rep true s'
        else rep :: sub_runs cls rep true s'
      else c :: sub_runs cls rep false s'
  end.

Definition clean_text (s : value) : result text :=
  if negb (truthy s) then Ok []
  else
    match s with
    | VStr t =>
        let t := sub_crlf t in
        let t := sub_runs is_lf LF false t in
        Ok (strip t)
    | _ => Err TypeError        (* re.sub: expected string *)
    end.

(** ** standardize_location *)

(** [s.title()]: a cased character is upper-cased when the character
    before it is not cased, lower-cased otherwise. *)
Fixpoint title_case_from (prev_cased : bool) (s : text) : text :=
  match s with
  | [] => []
  | c :: s' =>
      (if prev_cased then lower_char c else upper_char c)
        :: title_case_from (is_alpha c) s'
  end.

Definition title_case (s : text) : text := title_case_from false s.

Definition REMOTE_TOKENS : list text :=
  map str ["remote"; "anywhere"; "worldwide"; "work from home"]%string.

Definition standardize_location (loc : value) : result text :=
  if negb (truthy loc) then Ok []
  else
    match loc with
    | VStr t =>
        let l := lower (strip t) in
        let l := sub_runs is_space " " false l in
        if existsb (fun tok => contains tok l) REMOTE_TOKENS
        then Ok (str "Remote")
        else Ok (title_case l)
    | _ => Err AttributeError   (* no attribute 'strip' *)
    end.

(** ** parse_salary *)

Record salary : Type := Salary {
  sal_min : option Q;
  sal_max : option Q;
  sal_currency : option text
}.

Definition no_salary : salary := Salary None None None.

(** The longest prefix whose characters satisfy [p], and what follows. *)
Fixpoint span (p : ascii -> bool) (s : text) : text * text :=
  match s with
  | c :: s' =>
      if p c then let '(a, b) := span p s' in (c :: a, b) else ([], s)
  | [] => ([], [])
  end.

(** One match of [(\d+(?:\.\d+)?)(k)?] at the start of [s]: the two
    groups (the second as a flag) and the text after the match.  The
    digits are taken greedily; the fraction is taken when a point is
    followed by a digit; the suffix is taken when it is there. *)
Definition match_number (s : text) : option ((text * bool) * text) :=
  let '(ds, r1) := span is_digit s in
  match ds with
  | [] => None
  | _ :: _ =>
      let '(num, r2) :=
        match r1 with
        | "." :: r =>
            let '(fs, r') := span is_digit r in
            match fs with
            | [] => (ds, r1)
            | _ :: _ => (ds ++ "." :: fs, r')
            end
        | _ => (ds, r1)
        end in
      match r2 with
      | "k" :: r3 => Some ((num, true), r3)
      | _ => Some ((num, false), r2)
      end
  end.

(** [re.findall]: the matches from left to right, the scan resuming after
    each match, one character further where there is none.  Every step
    consumes a character, so the length of the text is fuel enough. *)
Fixpoint findall_fuel (fuel : nat) (s : text) : list (text * bool) :=
  match fuel with
  | O => []
  | S fuel' =>
      match s with
      | [] => []
      | _ :: s' =>
          match match_number s with
          | Some (tok, rest) => tok :: findall_fuel fuel' rest
          | None => findall_fuel fuel' s'
          end
      end
  end.

Definition findall_numbers (s : text) : list (text * bool) :=
  findall_fuel (length s) s.

Definition digit_value (c : ascii) : Z := Z.of_N (code c) - 48.

Definition int_of_digits (ds : text) : Z :=
  fold_left (fun n c => 10 * n + digit_value c)%Z ds 0%Z.

(** [float(num)] on the texts the pattern can match: digits, then
    possibly a point and digits.  On any other text the model answers
    [ValueError]; no such text reaches it from [findall_numbers]. *)
Definition py_float (num : text) : result Q :=
  let '(ds, r) := span is_digit num in
  match ds, r with
  | _ :: _, [] => Ok (inject_Z (int_of_digits ds))
  | _ :: _, "." :: ((_ :: _) as fs) =>
      if forallb is_digit fs
      then Ok (int_of_digits (ds ++ fs) # Z.to_pos (10 ^ Z.of_nat (length fs)))
      else Err ValueError
  | _, _ => Err ValueError
  end.

Definition Qltb (a b : Q) : bool := negb (Qle_bool b a).

(** [min(values)] and [max(values)] of a non-empty list: the running
    extremum is replaced by a strictly smaller (larger) element. *)
Definition py_min (v : Q) (rest : list Q) : Q :=
  fold_left (fun m x => if Qltb x m then x else m) rest v.

Definition py_max (v : Q) (rest : list Q) : Q :=
  fold_left (fun m x => if Qltb m x then x else m) rest v.

(** The string literal of line 133 of the source: the UTF-8 bytes of the
    three characters U+00E2 U+201A U+00AC. *)
Definition EURO_LITERAL : text :=
  ["195"; "162"; "226"; "128"; "154"; "194"; "172"].

(** The Euro sign, U+20AC. *)
Definition EURO_SIGN : text := ["226"; "130"; "172"].

Definition detect_currency (s s_clean : text) : option text :=
  if contains (str "$") s || contains (str "usd") s_clean
  then Some (str "USD")
  else if contains EURO_LITERAL s || contains (str "eur") s_clean
  then Some (str "EUR")
  else None.

Definition token_value (tok : text * bool) : result Q :=
  let* v := py_float tok.1 in
  Ok (if tok.2 then v * 1000 else v)%Q.

(** The list [values]: one candidate for each match of the pattern. *)
Definition candidate_values (s_clean : text) : result (list Q) :=
  mapM token_value (findall_numbers s_clean).

Definition parse_salary (s : value) : result salary :=
  match s with
  | VStr t =>
      if negb (truthy s) || negb (truthy (VStr (strip t))) then Ok no_salary
      else
        let s_clean := lower (remove_char "," t) in
        let currency := detect_currency t s_clean in
        let* values := candidate_values s_clean in
        match values with
        | [] => Ok (Salary None None currency)
        | [v] => Ok (Salary (Some v) (Some v) currency)
        | v :: rest =>
            Ok (Salary (Some (py_min v rest)) (Some (py_max v rest)) currency)
        end
  | _ => Ok no_salary           (* not s, or not isinstance(s, str) *)
  end.

(** ** infer_seniority *)

(** [x.lower()] on a value: only a text has the method. *)
Definition py_lower (v : value) : result text :=
  match v with
  | VStr t => Ok (lower t)
  | _ => Err AttributeError
  end.

Definition infer_seniority (title : value) : result text :=
  if negb (truthy title) then Ok []
  else
    let* t := py_lower title in
    match find (fun kv : text * text => contains kv.1 t) SENIORITY_MAP with
    | Some kv => Ok kv.2
    | None => Ok (str "mid")
    end.

(** ** extract_skills *)

Definition head_is_word (s : text) : bool :=
  match s with
  | c :: _ => is_word c
  | [] => false
  end.

(** The literal [w] between two [\b] at the start of [s], the character
    before [s] being a word character or not ([prev]).  A [\b] holds
    where exactly one of the two neighbours is a word character. *)
Definition match_word_here (w : text) (prev : bool) (s : text) : bool :=
  xorb prev (head_is_word s)
  && starts_with w s
  && xorb (match last w with Some c => is_word c | None => prev end)
          (head_is_word (drop (length w) s)).

(** [re.search(r"\b" + re.escape(w) + r"\b", s)]: a match at some
    position. *)
Fixpoint search_word_from (w : text) (prev : bool) (s : text) : bool :=
  match_word_here w prev s ||
  match s with
  | [] => false
  | c :: s' => search_word_from w (is_word c) s'
  end.

Definition search_word (w s : text) : bool := search_word_from w false s.

Definition text_le (a b : text) : Prop := text_leb a b = true.

#[global] Instance text_le_dec (a b : text) : Decision (text_le a b).
Proof. unfold text_le. apply _. Defined.

(** [sorted(set)] *)
Definition sorted (s : gset text) : list text :=
  merge_sort text_le (elements s).

Definition extract_skills_step (text_lower : text) (tag_candidates : value)
  (skills_set : gset text) (skill : text) : result (gset text) :=
  let w := lower skill in
  if search_word w text_lower then Ok ({[ w ]} ∪ skills_set)
  else
    let* tags_lower := py_lower tag_candidates in
    if search_word w tags_lower then Ok ({[ w ]} ∪ skills_set)
    else Ok skills_set.

Definition extract_skills (txt tags : value)
  (extra_skills : option (list text)) : result (list text) :=
  let* text_lower := py_lower (por txt (VStr [])) in
  let tag_candidates := por tags (VStr []) in
  let candidates := COMMON_SKILLS ++ default [] extra_skills in
  let* skills_set :=
    foldM (extract_skills_step text_lower tag_candidates) candidates ∅ in
  Ok (sorted skills_set).

(** ** transform_records *)

(** One row of the frame [pd.DataFrame(out)]; the fields are the keys of
    the dict appended to [out]. *)
Record row : Type := Row {
  row_id : value;
  row_url : value;
  row_title : text;
  row_normalized_title : text;
  row_company_name : text;
  row_category : value;
  row_job_type : value;
  row_publication_date : option text;
  row_location : text;
  row_remote : bool;
  row_salary_min : option Q;
  row_salary_max : option Q;
  row_salary_currency : option text;
  row_description : text;
  row_tags : value;
  row_skills : text;
  row_seniority : text;
  row_raw_record : gmap string value
}.

Section Records.

(** [dateutil.parser.parse] is a library outside the repository: a text
    is parsed to a date, given here in ISO form, or an exception is
    raised ([None]). *)
Variable dateutil_parse : text -> option text.

(** The [try]/[except Exception] turns every failure of the parser,
    and its [TypeError] on a value that is no text, into [None]. *)
Definition parse_publication_date (s : value) : option text :=
  if negb (truthy s) then None
  else
    match s with
    | VStr t => dateutil_parse t
    | _ => None
    end.

Variable extra_skills : option (list text).

(** The body of the loop of [transform_records]: the dict appended to
    [out] for the raw record [r]. *)
Definition transform_record (r : gmap string value) : result row :=
  let* desc :=
    clean_text (por (por (get r "description_text") (get r "description"))
                    (VStr [])) in
  let tags := por (get r "tags") (VStr []) in
  let* title := clean_text (por (get r "title") (VStr [])) in
  let* company :=
    clean_text (por (por (get r "company_name") (get r "company"))
                    (VStr [])) in
  let* loc :=
    standardize_location
      (por (por (get r "candidate_required_location") (get r "location"))
           (VStr [])) in
  let pub_date :=
    parse_publication_date
      (por (por (get r "publication_date") (get r "date")) VNone) in
  let* salary := parse_salary (get r "salary") in
  let* skills := extract_skills (VStr desc) tags extra_skills in
  let* seniority := infer_seniority (VStr title) in
  let remote_flag := if decide (loc = str "Remote") then true else false in
  Ok {| row_id := get r "id";
        row_url := get r "url";
        row_title := title;
        row_normalized_title := lower title;
        row_company_name := company;
        row_category := get r "category";
        row_job_type := get r "job_type";
        row_publication_date := pub_date;
        row_location := loc;
        row_remote := remote_flag;
        row_salary_min := sal_min salary;
        row_salary_max := sal_max salary;
        row_salary_currency := sal_currency salary;
        row_description := desc;
        row_tags := tags;
        row_skills := join (str ", ") skills;
        row_seniority := seniority;
        row_raw_record := r |}.

(** Lines 164 to 197: the list [out], one dict for each record, unless a
    record raises. *)
Definition candidate_rows (records : list (gmap string value))
  : result (list row) :=
  mapM transform_record records.

End Records.

(** [DataFrame.drop_duplicates(subset=...)] keeps, in the order of the
    frame, the first row of each value of the key; pandas holds all
    missing values (None, NaN) of a column to be one value, and two
    values that are not missing to be the same when they are equal. *)
Fixpoint drop_duplicates_from {K : Type} `{EqDecision K} (key : row -> K)
  (seen : list K) (df : list row) : list row :=
  match df with
  | [] => []
  | r :: df' =>
      if decide (key r ∈ seen) then drop_duplicates_from key seen df'
      else r :: drop_duplicates_from key (key r :: seen) df'
  end.

Definition drop_duplicates {K : Type} `{EqDecision K} (key : row -> K)
  (df : list row) : list row :=
  drop_duplicates_from key [] df.

Definition id_key (r : row) : option value :=
  if isna (row_id r) then None else Some (row_id r).

Definition triple_key (r : row) : text * text * text :=
  (row_title r, row_company_name r, row_location r).

(** [df["id"].notna().any()] *)
Definition any_id (df : list row) : bool :=
  existsb (fun r => negb (isna (row_id r))) df.

(** Lines 199 to 203.  A frame built from an empty list has no columns,
    so ["id" in df.columns] holds exactly when there is a row. *)
Definition by_id (df : list row) : bool :=
  match df with [] => false | _ :: _ => true end && any_id df.

Definition dedupe (df : list row) : list row :=
  if by_id df then drop_duplicates id_key df
  else drop_duplicates triple_key df.

(** [df["publication_date"]] on line 205 raises [KeyError] on the frame
    without columns that an empty [out] gives. *)
Definition transform_records (dateutil_parse : text -> option text)
  (records : list (gmap string value)) (extra_skills : option (list text))
  : result (list row) :=
  let* out := candidate_rows dateutil_parse extra_skills records in
  match out with
  | [] => Err KeyError
  | _ :: _ => Ok (dedupe out)
  end.

End Transformer.

(* ================================================================== *)
(** * The command line of the transformer *)
(* ================================================================== *)

Module TransformerCli.

Import Transformer.

(** Line 224, [[ln.strip() for ln in f if ln.strip()]]: the lines of the
    skills file that are not blank, without the whitespace at their
    ends. *)
Definition read_extra_skills (lines : list text) : list text :=
  map strip (List.filter (fun ln => truthy (VStr (strip ln))) lines).


End TransformerCli.

(* ================================================================== *)
(** * The dashboard ([dashboard/app.py]) *)
(* ================================================================== *)

Module Dashboard.

Local Open Scope char_scope.

(** [s.split(sep)] for a separator of one character. *)
Fixpoint split_on (sep : ascii) (s : text) : list text :=
  match s with
  | [] => [[]]
  | c :: s' =>
      if Ascii.eqb c sep then [] :: split_on sep s'
      else
        match split_on sep s' with
        | piece :: pieces => (c :: piece) :: pieces
        | [] => [[c]]
        end
  end.

(** Line 31 of [load_data], on one cell of the column [skills]:
    [fillna] turns a missing cell ([None]) into the empty text, and
    the lambda splits at the commas, keeping the pieces that are not
    blank, without the whitespace at their ends. *)
Definition skills_list (cell : option text) : list text :=
  let s := default [] cell in
  map strip
    (List.filter (fun i => truthy (VStr (strip i))) (split_on "," s)).

End Dashboard.

(* ================================================================== *)
(** * The extractor ([src/extractor.py]) *)
(* ================================================================== *)

Module Extractor.

Local Open Scope char_scope.

(** A Python [float] as [json] reads it: the rational of a decimal
    literal, or one of the values [json] accepts beyond the grammar. *)
Inductive pyfloat : Type :=
  | Finite (q : Q)
  | Infinite (negative : bool)
  | NotANumber.

(** What [resp.json()] returns.  A dict is the list of its items in
    insertion order, the keys all different. *)
#[warnings="-register-all"] Inductive json : Type :=
  | JNull
  | JBool (b : bool)
  | JInt (z : Z)
  | JFloat (f : pyfloat)
  | JStr (s : text)
  | JList (l : list json)
  | JObj (items : list (text * json)).

(** [bool(v)] *)
Definition json_truthy (v : json) : bool :=
  match v with
  | JNull => false
  | JBool b => b
  | JInt z => negb (z =? 0)%Z
  | JFloat (Finite q) => negb (Qeq_bool q 0)
  | JFloat _ => true
  | JStr s => match s with [] => false | _ => true end
  | JList l => match l with [] => false | _ => true end
  | JObj items => match items with [] => false | _ => true end
  end.

Fixpoint lookup_item (k : text) (items : list (text * json)) : option json :=
  match items with
  | [] => None
  | (k', v) :: items' =>
      if decide (k' = k) then Some v else lookup_item k items'
  end.

(** [d[k] = v]: the value of an item that is there is replaced where it
    stands, a new item comes last. *)
Fixpoint set_item (k : text) (v : json) (items : list (text * json))
  : list (text * json) :=
  match items with
  | [] => [(k, v)]
  | (k', v') :: items' =>
      if decide (k' = k) then (k, v) :: items'
      else (k', v') :: set_item k v items'
  end.

(** [d.get(k, dflt)]; only a dict has the method. *)
Definition dict_get (d : json) (k : text) (dflt : json) : result json :=
  match d with
  | JObj items => Ok (default dflt (lookup_item k items))
  | _ => Err AttributeError
  end.

(** A byte that continues a character of several bytes. *)
Definition is_continuation (c : ascii) : bool := in_range 128 191 c.

Definition head_continues (s : text) : bool :=
  match s with
  | d :: _ => is_continuation d
  | [] => false
  end.

(** The characters of a text, each with the bytes that continue it. *)
Fixpoint chars (s : text) : list text :=
  match s with
  | [] => []
  | c :: s' =>
      match chars s' with
      | p :: ps =>
          if head_continues s' then (c :: p) :: ps else [c] :: p :: ps
      | [] => [[c]]
      end
  end.

(** What [for x in v] goes through: the elements of a list, the
    characters of a text, the keys of a dict; nothing else is iterable. *)
Definition py_iter (v : json) : result (list json) :=
  match v with
  | JList l => Ok l
  | JStr s => Ok (JStr <$> chars s)
  | JObj items => Ok ((fun kv : text * json => JStr kv.1) <$> items)
  | _ => Err TypeError
  end.

(** [len(v)] *)
Definition py_len (v : json) : result nat :=
  let* xs := py_iter v in Ok (length xs).

(** [sep.join(v)]: every item must be a text. *)
Definition join_value (sep : text) (v : json) : result text :=
  let* xs := py_iter v in
  let* parts :=
    mapM (fun x => match x with JStr t => Ok t | _ => Err TypeError end) xs in
  Ok (join sep parts).

(** [l[:n]] on a list: the first [n] elements, or all but the last [-n]
    when [n] is negative. *)
Definition slice_to {A : Type} (n : Z) (l : list A) : list A :=
  if (0 <=? n)%Z then take (Z.to_nat n) l
  else take (length l - Z.to_nat (- n)) l.

Section Fetch.

(** What [d[:n]] raises on a dict [d]: [TypeError] (a slice cannot be
    hashed) before Python 3.12, [KeyError] from it on. *)
Variable dict_slice_error : exn.

(** [v[:n]] *)
Definition py_slice_to (v : json) (n : Z) : result json :=
  match v with
  | JList l => Ok (JList (slice_to n l))
  | JStr s => Ok (JStr (concat (slice_to n (chars s))))
  | JObj _ => Err dict_slice_error
  | _ => Err TypeError
  end.

(** [fetch_remotive_jobs] from line 80 on: [data] is what [resp.json()]
    returned, [limit] the argument, an [int] or [None].  Line 86 takes
    the length of the jobs for the log, which raises if they have
    none. *)
Definition fetch_remotive_jobs (data : json) (limit : option Z)
  : result json :=
  let* data :=
    match limit with
    | None => Ok data
    | Some n =>
        match data with
        | JObj items =>
            let jobs := default (JList []) (lookup_item (str "jobs") items) in
            let* trimmed := py_slice_to jobs n in
            Ok (JObj (set_item (str "jobs") trimmed items))
        | _ => Err AttributeError
        end
    end in
  let* jobs := dict_get data (str "jobs") (JList []) in
  let* _ := py_len jobs in
  Ok data.

End Fetch.

(** One record of [parse_jobs]; the fields are the keys of the dict
    [rec]. *)
Record job_record : Type := JobRecord {
  rec_id : json;
  rec_url : json;
  rec_title : json;
  rec_company_name : json;
  rec_category : json;
  rec_job_type : json;
  rec_publication_date : json;
  rec_candidate_required_location : json;
  rec_salary : json;
  rec_description_text : text;
  rec_tags : text;
  rec_raw : json
}.

Section Parse.

(** [BeautifulSoup(html, "html.parser").get_text(separator="\n")]: a
    library outside the repository, which returns a text or raises. *)
Variable soup_get_text : json -> result text.

Definition html_to_text (html : json) : result text :=
  if negb (json_truthy html) then Ok []
  else
    let* t := soup_get_text html in
    Ok (strip t).

(** Line 123: the value of the key [tags]. *)
Definition tags_field (j : json) : result text :=
  let* cond := dict_get j (str "tags") JNull in
  if json_truthy cond then
    let* tags := dict_get j (str "tags") (JList []) in
    join_value (str ", ") tags
  else Ok [].

(** The body of the loop of [parse_jobs]: the dict [rec] of the job
    [j]. *)
Definition parse_job (j : json) : result job_record :=
  let* id := dict_get j (str "id") JNull in
  let* url := dict_get j (str "url") JNull in
  let* title := dict_get j (str "title") JNull in
  let* company_name := dict_get j (str "company_name") JNull in
  let* category := dict_get j (str "category") JNull in
  let* job_type := dict_get j (str "job_type") JNull in
  let* publication_date := dict_get j (str "publication_date") JNull in
  let* location := dict_get j (str "candidate_required_location") JNull in
  let* salary := dict_get j (str "salary") JNull in
  let* description := dict_get j (str "description") JNull in
  let* description_text := html_to_text description in
  let* tags := tags_field j in
  Ok {| rec_id := id;
        rec_url := url;
        rec_title := title;
        rec_company_name := company_name;
        rec_category := category;
        rec_job_type := job_type;
        rec_publication_date := publication_date;
        rec_candidate_required_location := location;
        rec_salary := salary;
        rec_description_text := description_text;
        rec_tags := tags;
        rec_raw := j |}.

Definition parse_jobs (raw : json) : result (list job_record) :=
  let* jobs := dict_get raw (str "jobs") (JList []) in
  let* js := py_iter jobs in
  mapM parse_job js.

End Parse.

End Extractor.

(* ================================================================== *)
(** * The specification's vocabulary *)
(* ================================================================== *)

Module Spec.

Import Transformer.
Local Open Scope char_scope.

(** [k] occurs in [t], letter case aside: a piece of [t] is [k] up to
    case. *)
Definition occurs_ci (k t : text) : Prop :=
  exists pre w post, t = pre ++ w ++ post /\ lower w = lower k.

(** The keyword table as the specification groups it. *)
Definition KEYWORD_TABLE : list (list string * string) :=
  [ (["senior"; "sr."; "lead"; "principal"; "staff"], "senior");
    (["junior"; "jr."], "junior");
    (["intern"], "intern");
    (["manager"], "manager") ]%string.

(** The table in iteration order: keyword, bucket. *)
Definition keyword_buckets : list (text * text) :=
  flat_map (fun g : list string * string =>
              map (fun k => (str k, str g.2)) g.1) KEYWORD_TABLE.

(** The seniority classifier as the specification words it. *)
Inductive seniority_of : value -> text -> Prop :=
  | sen_absent : seniority_of VNone []
  | sen_empty : seniority_of (VStr []) []
  | sen_first (t : text) before k b after :
      t <> [] ->
      keyword_buckets = before ++ (k, b) :: after ->
      occurs_ci k t ->
      (forall k' b', In (k', b') before -> ~ occurs_ci k' t) ->
      seniority_of (VStr t) b
  | sen_mid (t : text) :
      t <> [] ->
      (forall k b, In (k, b) keyword_buckets -> ~ occurs_ci k t) ->
      seniority_of (VStr t) (str "mid").

(** A non-empty run of decimal digits. *)
Definition digits (ds : text) : Prop :=
  ds <> [] /\ Forall (fun c => is_digit c = true) ds.

(** The number a run of digits denotes, by place value. *)
Fixpoint place_value (ds : text) : Z :=
  match ds with
  | [] => 0
  | d :: ds' => digit_value d * 10 ^ Z.of_nat (length ds') + place_value ds'
  end.

(** A number in plain decimal notation, and the number it denotes. *)
Inductive decimal_literal : text -> Q -> Prop :=
  | dec_whole ds :
      digits ds -> decimal_literal ds (inject_Z (place_value ds))
  | dec_point ds fs :
      digits ds -> digits fs ->
      decimal_literal (ds ++ "." :: fs)
        (inject_Z (place_value ds)
         + inject_Z (place_value fs) / inject_Z (10 ^ Z.of_nat (length fs)))%Q.



Definition lowercased (x : text) : Prop := lower x = x.


(** An argument of type [Optional[str]]. *)
Definition of_optional (s : option text) : value :=
  match s with
  | Some t => VStr t
  | None => VNone
  end.

(** Each CR that stands before an LF is deleted. *)
Fixpoint crlf_to_lf (s : text) : text :=
  match s with
  | [] => []
  | c :: s' =>
      if Ascii.eqb c CR && match s' with d :: _ => Ascii.eqb d LF | [] => false end
      then crlf_to_lf s'
      else c :: crlf_to_lf s'
  end.

(** Each LF that stands before an LF is deleted. *)
Fixpoint squeeze_newlines (s : text) : text :=
  match s with
  | [] => []
  | c :: s' =>
      if is_lf c && match s' with d :: _ => is_lf d | [] => false end
      then squeeze_newlines s'
      else c :: squeeze_newlines s'
  end.

Definition whitespace (ws : text) : Prop :=
  Forall (fun c => is_space c = true) ws.

(** No whitespace at either end. *)
Definition trimmed (t : text) : Prop :=
  (forall c t', t = c :: t' -> is_space c = false) /\
  (forall c t', t = t' ++ [c] -> is_space c = false).

Definition no_adjacent_newlines (t : text) : Prop :=
  forall a b, t <> a ++ LF :: LF :: b.

(** The key the deduplication of a frame goes by. *)
Definition dedup_key (df : list row) (r : row)
  : option value + text * text * text :=
  if by_id df then inl (id_key r) else inr (triple_key r).

Definition null_id (r : row) : Prop := isna (row_id r) = true.

(** ** Where the embedding is exact

    The character classes and the case mapping of the embedding are
    those of ASCII, its numbers are rationals, and the identifiers of
    its rows are compared as they stand.  Python classifies and maps
    every Unicode character, computes in binary64, and pandas keeps the
    integer identifiers of a frame as binary64 floats when one of them is
    missing.  The three predicates below say where both agree. *)

(** A text of ASCII characters. *)
Definition ascii_text (t : text) : Prop :=
  Forall (fun c => (code c < 128)%N) t.




End Spec.

(* ================================================================== *)
(** * Facts about texts *)
(* ================================================================== *)

Module TextFacts.

Import Spec.

Definition ascii_textb (t : text) : bool :=
  forallb (fun c => (code c <? 128)%N) t.

Lemma ascii_textb_spec (t : text) : ascii_textb t = true -> ascii_text t.
Proof.
  unfold ascii_textb, ascii_text. rewrite forallb_forall, List.Forall_forall.
  intros H c Hc. apply N.ltb_lt, H, Hc.
Qed.

Lemma starts_with_spec (p s : text) :
  starts_with p s = true <-> exists post, s = p ++ post.
Proof.
  revert s; induction p as [|a p IH]; intros s; simpl.
  - split; [intros _; exists s; reflexivity | reflexivity].
  - destruct s as [|b s].
    + split; [discriminate | intros [post H]; discriminate].
    + rewrite andb_true_iff, Ascii.eqb_eq, IH. split.
      * intros [-> [post ->]]. exists post. reflexivity.
      * intros [post H]. injection H as -> ->. split; [reflexivity | eauto].
Qed.

Lemma contains_spec (k t : text) :
  contains k t = true <-> exists pre post, t = pre ++ k ++ post.
Proof.
  induction t as [|c t IH]; simpl.
  - rewrite orb_false_r, starts_with_spec. split.
    + intros [post H]. exists [], post. exact H.
    + intros [pre [post H]]. destruct pre; [exists post; exact H | discriminate].
  - rewrite orb_true_iff, starts_with_spec, IH. split.
    + intros [[post H] | [pre [post H]]].
      * exists [], post. exact H.
      * exists (c :: pre), post. rewrite H. reflexivity.
    + intros [pre [post H]]. destruct pre as [|c' pre].
      * left. exists post. exact H.
      * right. injection H as _ H. eauto.
Qed.

Lemma contains_false (k t : text) :
  contains k t = false <-> ~ exists pre post, t = pre ++ k ++ post.
Proof.
  rewrite <- contains_spec. symmetry. apply not_true_iff_false.
Qed.

Lemma lower_app (a b : text) : lower (a ++ b) = lower a ++ lower b.
Proof. apply map_app. Qed.

Lemma lower_char_idem (c : ascii) : lower_char (lower_char c) = lower_char c.
Proof. destruct c as [[] [] [] [] [] [] [] []]; reflexivity. Qed.

Lemma lower_idem (s : text) : lower (lower s) = lower s.
Proof.
  induction s as [|c s IH]; simpl; [reflexivity|].
  rewrite lower_char_idem. f_equal. exact IH.
Qed.

(** The test the classifier makes, [k in t.lower()], is the occurrence of
    a lower-case keyword up to case. *)
Lemma contains_lower_occurs (k t : text) :
  lower k = k -> contains k (lower t) = true <-> occurs_ci k t.
Proof.
  intros Hk. rewrite contains_spec. unfold occurs_ci. split.
  - intros [pre [post H]].
    apply map_eq_app in H as [pre' [rest [-> [Hpre Hrest]]]].
    apply map_eq_app in Hrest as [w [post' [-> [Hw Hpost]]]].
    exists pre', w, post'. split; [reflexivity|].
    unfold lower. rewrite Hw. symmetry. exact Hk.
  - intros [pre [w [post [-> Hw]]]].
    exists (lower pre), (lower post).
    rewrite !lower_app, Hw, Hk. reflexivity.
Qed.

Lemma occurs_ci_trans (k w t : text) :
  occurs_ci k w -> occurs_ci w t -> occurs_ci k t.
Proof.
  intros [p1 [k' [q1 [-> Hk]]]] [p2 [w' [q2 [-> Hw]]]].
  rewrite !lower_app in Hw.
  apply map_eq_app in Hw as [a [rest [-> [Ha Hrest]]]].
  apply map_eq_app in Hrest as [b [c [-> [Hb Hc]]]].
  exists (p2 ++ a), b, (c ++ q2). split.
  - rewrite <- !app_assoc. reflexivity.
  - unfold lower in *. rewrite Hb. exact Hk.
Qed.

Lemma occurs_ci_nonempty (k t : text) : occurs_ci k t -> k <> [] -> t <> [].
Proof.
  intros [pre [w [post [-> Hw]]]] Hk Hnil.
  apply app_eq_nil in Hnil as [_ Hnil].
  apply app_eq_nil in Hnil as [-> _].
  destruct k; [apply Hk; reflexivity | discriminate].
Qed.

(** ** strip *)

Lemma lstrip_split (s : text) :
  exists ws, s = ws ++ lstrip s /\ whitespace ws.
Proof.
  induction s as [|c s [ws [IH Hws]]]; simpl.
  - exists []. split; [reflexivity | constructor].
  - destruct (is_space c) eqn:Hc.
    + exists (c :: ws). split; [simpl; f_equal; exact IH|].
      constructor; assumption.
    + exists []. split; [reflexivity | constructor].
Qed.

Lemma lstrip_head (s : text) (c : ascii) (r : text) :
  lstrip s = c :: r -> is_space c = false.
Proof.
  induction s as [|d s IH]; simpl; [discriminate|].
  destruct (is_space d) eqn:Hd; [exact IH|].
  intros [= <- <-]. exact Hd.
Qed.

Lemma rstrip_split (s : text) :
  exists ws, s = rstrip s ++ ws /\ whitespace ws.
Proof.
  unfold rstrip. destruct (lstrip_split (rev s)) as [ws [H Hws]].
  exists (rev ws). split.
  - rewrite <- rev_app_distr, <- H, rev_involutive. reflexivity.
  - apply Forall_rev. exact Hws.
Qed.

Lemma rstrip_last (s r : text) (c : ascii) :
  rstrip s = r ++ [c] -> is_space c = false.
Proof.
  unfold rstrip. intros H.
  apply (f_equal (@rev ascii)) in H.
  rewrite rev_involutive, rev_app_distr in H. simpl in H.
  exact (lstrip_head _ _ _ H).
Qed.

(** [strip] takes whitespace, and nothing else, off both ends. *)
Lemma strip_split (s : text) :
  exists ws1 ws2,
    s = ws1 ++ strip s ++ ws2 /\ whitespace ws1 /\ whitespace ws2.
Proof.
  unfold strip.
  destruct (lstrip_split s) as [ws1 [H1 Hws1]].
  destruct (rstrip_split (lstrip s)) as [ws2 [H2 Hws2]].
  exists ws1, ws2. split; [|split; assumption].
  rewrite <- H2. exact H1.
Qed.

Lemma strip_trimmed (s : text) : trimmed (strip s).
Proof.
  split.
  - intros c t' H. unfold strip in H.
    destruct (rstrip_split (lstrip s)) as [ws [H2 _]].
    rewrite H in H2. simpl in H2. exact (lstrip_head _ _ _ H2).
  - intros c t' H. exact (rstrip_last _ _ _ H).
Qed.

Lemma whitespace_app (a b : text) :
  whitespace (a ++ b) <-> whitespace a /\ whitespace b.
Proof. apply Forall_app. Qed.

Lemma strip_nil_whitespace (s : text) : strip s = [] -> whitespace s.
Proof.
  intros H. destruct (strip_split s) as [ws1 [ws2 [E [H1 H2]]]].
  rewrite E, H. simpl. apply whitespace_app. split; assumption.
Qed.

Lemma digit_not_space (c : ascii) : is_digit c = true -> is_space c = false.
Proof.
  destruct c as [[] [] [] [] [] [] [] []]; intros H;
    first [reflexivity | discriminate H].
Qed.

Lemma digit_of_lower (c : ascii) :
  is_digit (lower_char c) = true -> is_digit c = true.
Proof.
  destruct c as [[] [] [] [] [] [] [] []]; intros H;
    first [reflexivity | discriminate H].
Qed.

End TextFacts.

(* ================================================================== *)
(** * The seniority classifier *)
(* ================================================================== *)

Module SeniorityFacts.

Import Transformer Spec TextFacts.

Lemma SENIORITY_MAP_table : SENIORITY_MAP = keyword_buckets.
Proof. reflexivity. Qed.

Lemma keyword_lower_nonempty (k b : text) :
  In (k, b) keyword_buckets -> lower k = k /\ k <> [].
Proof.
  assert (H : Forall (fun kv : text * text => lower kv.1 = kv.1 /\ kv.1 <> [])
                keyword_buckets).
  { vm_compute. repeat constructor; discriminate. }
  intros Hin. rewrite List.Forall_forall in H. exact (H _ Hin).
Qed.

Lemma find_first {A : Type} (p : A -> bool) (before : list A) x after :
  p x = true ->
  (forall y, In y before -> p y = false) ->
  find p (before ++ x :: after) = Some x.
Proof.
  intros Hx. induction before as [|y before IH]; intros Hb; simpl.
  - rewrite Hx. reflexivity.
  - rewrite (Hb y (or_introl eq_refl)). apply IH.
    intros z Hz. apply Hb. right. exact Hz.
Qed.

Lemma find_all_false {A : Type} (p : A -> bool) (l : list A) :
  (forall y, In y l -> p y = false) -> find p l = None.
Proof.
  induction l as [|y l IH]; intros H; simpl; [reflexivity|].
  rewrite (H y (or_introl eq_refl)). apply IH.
  intros z Hz. apply H. right. exact Hz.
Qed.

Lemma find_some_split {A : Type} (p : A -> bool) (l : list A) x :
  find p l = Some x ->
  exists before after,
    l = before ++ x :: after /\ p x = true /\
    forall y, In y before -> p y = false.
Proof.
  induction l as [|y l IH]; simpl; [discriminate|].
  destruct (p y) eqn:Hy.
  - intros [= ->]. exists [], l. repeat split; [exact Hy | intros ? []].
  - intros H. destruct (IH H) as [before [after [-> [Hx Hb]]]].
    exists (y :: before), after. repeat split; [exact Hx|].
    intros z [<- | Hz]; [exact Hy | exact (Hb z Hz)].
Qed.

Lemma infer_seniority_text (c : ascii) (t : text) :
  infer_seniority (VStr (c :: t)) =
  match find (fun kv : text * text => contains kv.1 (lower (c :: t)))
             keyword_buckets with
  | Some kv => Ok kv.2
  | None => Ok (str "mid")
  end.
Proof. reflexivity. Qed.

Lemma keyword_test (t k b : text) :
  In (k, b) keyword_buckets ->
  contains k (lower t) = true <-> occurs_ci k t.
Proof.
  intros Hin. apply contains_lower_occurs.
  exact (proj1 (keyword_lower_nonempty k b Hin)).
Qed.

Lemma infer_seniority_first (t : text) before k b after :
  t <> [] ->
  keyword_buckets = before ++ (k, b) :: after ->
  occurs_ci k t ->
  (forall k' b', In (k', b') before -> ~ occurs_ci k' t) ->
  infer_seniority (VStr t) = Ok b.
Proof.
  intros Ht Htbl Hk Hbefore.
  destruct t as [|c t]; [contradiction|].
  rewrite infer_seniority_text.
  assert (Hin : forall x, In x (before ++ (k, b) :: after) ->
                          In x keyword_buckets).
  { intros x Hx. rewrite Htbl. exact Hx. }
  rewrite Htbl at 1.
  rewrite (find_first _ before (k, b) after); [reflexivity | |].
  - cbn [fst]. apply (keyword_test _ k b); [|exact Hk].
    apply Hin, in_elt.
  - intros [k' b'] Hy. cbn [fst]. apply not_true_iff_false. intros C.
    apply (Hbefore k' b' Hy). apply (keyword_test _ k' b'); [|exact C].
    apply Hin, in_or_app. left. exact Hy.
Qed.

Lemma infer_seniority_mid (t : text) :
  t <> [] ->
  (forall k b, In (k, b) keyword_buckets -> ~ occurs_ci k t) ->
  infer_seniority (VStr t) = Ok (str "mid").
Proof.
  intros Ht Hnone. destruct t as [|c t]; [contradiction|].
  rewrite infer_seniority_text, find_all_false; [reflexivity|].
  intros [k b] Hin. cbn [fst]. apply not_true_iff_false. intros C.
  apply (Hnone k b Hin). apply (keyword_test _ k b Hin). exact C.
Qed.

(** The wording of the specification leaves no title without a bucket. *)
Lemma seniority_of_total (s : option text) :
  exists b, seniority_of (of_optional s) b.
Proof.
  destruct s as [[|c t]|]; simpl;
    [exists []; constructor | | exists []; constructor].
  destruct (find (fun kv : text * text => contains kv.1 (lower (c :: t)))
                 keyword_buckets) as [[k b]|] eqn:Hfind.
  - apply find_some_split in Hfind as [before [after [Htbl [Hk Hb]]]].
    assert (Hin : forall x, In x (before ++ (k, b) :: after) ->
                            In x keyword_buckets).
    { intros x Hx. rewrite Htbl. exact Hx. }
    exists b. apply (sen_first _ before k b after); [discriminate | exact Htbl | |].
    + apply (keyword_test _ k b); [apply Hin, in_elt | exact Hk].
    + intros k' b' Hy C. specialize (Hb _ Hy). cbn [fst] in Hb.
      apply (keyword_test _ k' b') in C; [congruence|].
      apply Hin, in_or_app. left. exact Hy.
  - exists (str "mid"). apply sen_mid; [discriminate|].
    intros k b Hin C. apply (keyword_test _ k b Hin) in C.
    pose proof (List.find_none _ _ Hfind (k, b) Hin) as Hf.
    cbn [fst] in Hf. congruence.
Qed.

(** C4: [infer_seniority] returns the bucket of the first keyword of the
    ordered table (senior, sr., lead, principal, staff: senior; junior,
    jr.: junior; intern: intern; manager: manager) that occurs in the
    title, letter case aside; the empty text for an empty or absent
    title; and mid when no keyword occurs. *)
Theorem infer_seniority_spec (title : value) (b : text) :
  seniority_of title b -> infer_seniority title = Ok b.
Proof.
  intros H. destruct H as [| | t before k b after Ht Htbl Hk Hb | t Ht Hnone].
  - reflexivity.
  - reflexivity.
  - exact (infer_seniority_first t before k b after Ht Htbl Hk Hb).
  - exact (infer_seniority_mid t Ht Hnone).
Qed.

Lemma infer_seniority_spec_witness :
  infer_seniority (VStr (str "Junior Team Lead")) = Ok (str "senior").
Proof.
  apply infer_seniority_spec.
  apply (sen_first _ (firstn 2 keyword_buckets) (str "lead") (str "senior")
           (skipn 3 keyword_buckets)).
  - discriminate.
  - reflexivity.
  - exists (str "Junior Team "), (str "Lead"), []. split; reflexivity.
  - intros k' b' [H | [H | []]] C; injection H as <- <-;
      apply contains_lower_occurs in C; try reflexivity;
      vm_compute in C; discriminate.
Defined.

(** C10: keywords are matched as plain substrings, not as words.  A
    keyword that occurs inside a longer word of the title decides the
    bucket when no earlier keyword of the table occurs; so a title that
    contains "international" and no keyword of the senior and junior
    groups is an intern, whether or not it contains "manager". *)
Theorem infer_seniority_substring :
  (forall (t word k b : text) before after,
      keyword_buckets = before ++ (k, b) :: after ->
      occurs_ci k word ->
      occurs_ci word t ->
      (forall k' b', In (k', b') before -> ~ occurs_ci k' t) ->
      infer_seniority (VStr t) = Ok b)
  /\
  (forall t : text,
      occurs_ci (str "international") t ->
      (forall k, In k (map str ["senior"; "sr."; "lead"; "principal";
                                "staff"; "junior"; "jr."]%string) ->
                 ~ occurs_ci k t) ->
      infer_seniority (VStr t) = Ok (str "intern")).
Proof.
  assert (General : forall (t word k b : text) before after,
      keyword_buckets = before ++ (k, b) :: after ->
      occurs_ci k word ->
      occurs_ci word t ->
      (forall k' b', In (k', b') before -> ~ occurs_ci k' t) ->
      infer_seniority (VStr t) = Ok b).
  { intros t word k b before after Htbl Hkw Hwt Hb.
    pose proof (occurs_ci_trans k word t Hkw Hwt) as Hk.
    apply (infer_seniority_first t before k b after); try assumption.
    apply (occurs_ci_nonempty k t Hk).
    apply (keyword_lower_nonempty k b). rewrite Htbl. apply in_elt. }
  split; [exact General|].
  intros t Hint Hnone.
  apply (General t (str "international") (str "intern") (str "intern")
           (firstn 7 keyword_buckets) (skipn 8 keyword_buckets)).
  - reflexivity.
  - exists [], (str "intern"), (str "ational"). split; reflexivity.
  - exact Hint.
  - intros k' b' Hin. apply Hnone.
    apply (in_map fst) in Hin. exact Hin.
Qed.

Lemma infer_seniority_substring_witness :
  infer_seniority (VStr (str "International Sales Manager"))
  = Ok (str "intern").
Proof.
  apply (proj2 infer_seniority_substring).
  - exists [], (str "International"), (str " Sales Manager").
    split; reflexivity.
  - intros k Hin C. apply contains_lower_occurs in C.
    + simpl in Hin.
      repeat (destruct Hin as [<- | Hin]; [vm_compute in C; discriminate|]).
      destruct Hin.
    + simpl in Hin.
      repeat (destruct Hin as [<- | Hin]; [reflexivity|]).
      destruct Hin.
Defined.

End SeniorityFacts.

(* ================================================================== *)
(** * The salary parser *)
(* ================================================================== *)

Module SalaryFacts.

Import Transformer Spec TextFacts.
Local Open Scope char_scope.

(** ** Scanning *)

Definition stops (p : ascii -> bool) (s : text) : Prop :=
  match s with
  | [] => True
  | c :: _ => p c = false
  end.

Lemma span_spec (p : ascii -> bool) (s a b : text) :
  span p s = (a, b) ->
  s = a ++ b /\ Forall (fun c => p c = true) a /\ stops p b.
Proof.
  revert a b; induction s as [|c s IH]; intros a b; simpl.
  - intros [= <- <-]. repeat split. constructor.
  - destruct (p c) eqn:Hc.
    + destruct (span p s) as [a' b'] eqn:Hs. intros [= <- <-].
      destruct (IH a' b' eq_refl) as [-> [Ha Hb]].
      repeat split; [constructor; assumption | exact Hb].
    + intros [= <- <-]. repeat split; [constructor | exact Hc].
Qed.

Lemma span_app (p : ascii -> bool) (a b : text) :
  Forall (fun c => p c = true) a -> stops p b -> span p (a ++ b) = (a, b).
Proof.
  intros Ha Hb. induction Ha as [|c a Hc Ha IH]; simpl.
  - destruct b as [|c b]; [reflexivity|]. simpl in *. rewrite Hb. reflexivity.
  - rewrite Hc, IH. reflexivity.
Qed.

Lemma span_all (p : ascii -> bool) (a : text) :
  Forall (fun c => p c = true) a -> span p a = (a, []).
Proof.
  intros Ha. rewrite <- (app_nil_r a) at 1. apply span_app; [exact Ha | exact I].
Qed.

(** What a match of the pattern looks like. *)
Inductive number_token : text -> Prop :=
  | tok_whole ds : digits ds -> number_token ds
  | tok_point ds fs : digits ds -> digits fs -> number_token (ds ++ "." :: fs).

Lemma match_number_spec (s num rest : text) (k : bool) :
  match_number s = Some ((num, k), rest) ->
  number_token num /\
  s = num ++ (if k then ["k"] else []) ++ rest.
Proof.
  unfold match_number.
  destruct (span is_digit s) as [ds r1] eqn:Hds.
  apply span_spec in Hds as [-> [Hdig Hstop]].
  destruct ds as [|d ds]; [discriminate|].
  assert (Hd : digits (d :: ds)) by (split; [discriminate | exact Hdig]).
  assert (Plain : forall r2 : text,
    match r2 with
    | "k" :: r3 => Some (((d :: ds), true), r3)
    | _ => Some (((d :: ds), false), r2)
    end = Some ((num, k), rest) ->
    number_token num /\
    (d :: ds) ++ r2 = num ++ (if k then ["k"] else []) ++ rest).
  { intros r2 H.
    assert (H' : (num = d :: ds /\ k = true /\ r2 = "k" :: rest) \/
                 (num = d :: ds /\ k = false /\ r2 = rest)).
    { destruct r2 as [|c r3]; [injection H as <- <- <-; auto|].
      destruct (ascii_dec c "k") as [-> | Hne].
      - injection H as <- <- <-. auto.
      - right.
        assert (Some (d :: ds, false, c :: r3) = Some (num, k, rest)) as E.
        { rewrite <- H. destruct c as [[] [] [] [] [] [] [] []];
            try reflexivity. contradiction Hne; reflexivity. }
        injection E as <- <- <-. auto. }
    destruct H' as [[-> [-> ->]] | [-> [-> ->]]];
      (split; [apply tok_whole; exact Hd | reflexivity]). }
  destruct r1 as [|c r]; [apply (Plain [])|].
  destruct (ascii_dec c ".") as [-> | Hne].
  - destruct (span is_digit r) as [fs r'] eqn:Hfs.
    apply span_spec in Hfs as [-> [Hfdig _]].
    destruct fs as [|f fs]; [apply (Plain ("." :: r'))|].
    assert (Hf : digits (f :: fs)) by (split; [discriminate | exact Hfdig]).
    intros H.
    assert (H' : (num = (d :: ds) ++ "." :: f :: fs /\ k = true /\
                  r' = "k" :: rest) \/
                 (num = (d :: ds) ++ "." :: f :: fs /\ k = false /\
                  r' = rest)).
    { destruct r' as [|c r3]; [injection H as <- <- <-; auto|].
      destruct (ascii_dec c "k") as [-> | Hne].
      - injection H as <- <- <-. auto.
      - right.
        assert (Some ((d :: ds) ++ "." :: f :: fs, false, c :: r3)
                = Some (num, k, rest)) as E.
        { rewrite <- H. destruct c as [[] [] [] [] [] [] [] []];
            try reflexivity. contradiction Hne; reflexivity. }
        injection E as <- <- <-. auto. }
    destruct H' as [[-> [-> ->]] | [-> [-> ->]]];
      (split; [apply tok_point; assumption |
               simpl; rewrite <- ?app_assoc; reflexivity]).
  - intros H. apply (Plain (c :: r)). rewrite <- H.
    destruct c as [[] [] [] [] [] [] [] []]; try reflexivity.
    contradiction Hne; reflexivity.
Qed.

Lemma number_token_nonempty (num : text) : number_token num -> num <> [].
Proof.
  intros [ds [Hne _] | ds fs [Hne _] _]; [exact Hne|].
  destruct ds; [contradiction | discriminate].
Qed.

Lemma match_number_shorter (s num rest : text) (k : bool) :
  match_number s = Some ((num, k), rest) -> length rest < length s.
Proof.
  intros H. apply match_number_spec in H as [Htok ->].
  apply number_token_nonempty in Htok.
  rewrite !length_app. destruct num; [contradiction | simpl; lia].
Qed.

Lemma findall_fuel_enough (f f' : nat) (s : text) :
  length s <= f -> length s <= f' -> findall_fuel f s = findall_fuel f' s.
Proof.
  revert f' s. induction f as [|f IH]; intros f' s Hf Hf'.
  - destruct s; [|simpl in Hf; lia]. destruct f'; reflexivity.
  - destruct f' as [|f'].
    + destruct s; [reflexivity | simpl in Hf'; lia].
    + destruct s as [|c s]; [reflexivity|].
      cbn [findall_fuel]. simpl in Hf, Hf'.
      destruct (match_number (c :: s)) as [[[num k] rest]|] eqn:Hm.
      * apply match_number_shorter in Hm. simpl in Hm.
        f_equal. apply IH; lia.
      * apply IH; lia.
Qed.

(** The scan, one step at a time. *)
Lemma findall_numbers_step (s : text) :
  findall_numbers s =
  match s with
  | [] => []
  | _ :: s' =>
      match match_number s with
      | Some (tok, rest) => tok :: findall_numbers rest
      | None => findall_numbers s'
      end
  end.
Proof.
  unfold findall_numbers. destruct s as [|c s]; [reflexivity|].
  cbn [length findall_fuel].
  destruct (match_number (c :: s)) as [[[num k] rest]|] eqn:Hm.
  - apply match_number_shorter in Hm. simpl in Hm.
    f_equal. apply findall_fuel_enough; lia.
  - reflexivity.
Qed.

Lemma findall_numbers_tokens (s : text) :
  Forall (fun tok : text * bool => number_token tok.1) (findall_numbers s).
Proof.
  remember (length s) as n eqn:Hn.
  revert s Hn. induction n as [n IH] using lt_wf_ind. intros s Hn.
  rewrite findall_numbers_step. destruct s as [|c s]; [constructor|].
  destruct (match_number (c :: s)) as [[[num k] rest]|] eqn:Hm.
  - pose proof (match_number_shorter _ _ _ _ Hm) as Hlt.
    apply match_number_spec in Hm as [Htok _].
    constructor; [exact Htok|]. apply (IH (length rest)); [lia | reflexivity].
  - apply (IH (length s)); [simpl in Hn; lia | reflexivity].
Qed.

(** ** Numbers *)

Lemma forallb_digits (fs : text) :
  Forall (fun c => is_digit c = true) fs -> forallb is_digit fs = true.
Proof.
  intros H. apply forallb_forall. rewrite List.Forall_forall in H. exact H.
Qed.

Lemma py_float_whole (ds : text) :
  digits ds -> py_float ds = Ok (inject_Z (int_of_digits ds)).
Proof.
  intros [Hne Hd]. unfold py_float. rewrite (span_all _ _ Hd).
  destruct ds; [contradiction | reflexivity].
Qed.

Lemma py_float_point (ds fs : text) :
  digits ds -> digits fs ->
  py_float (ds ++ "." :: fs)
  = Ok (int_of_digits (ds ++ fs) # Z.to_pos (10 ^ Z.of_nat (length fs))).
Proof.
  intros [Hne Hd] [Hnf Hf]. unfold py_float.
  rewrite (span_app _ ds ("." :: fs) Hd); [|reflexivity].
  destruct ds as [|d ds]; [contradiction|].
  destruct fs as [|f fs]; [contradiction|].
  rewrite (forallb_digits _ Hf). reflexivity.
Qed.

Lemma token_value_total (tok : text * bool) :
  number_token tok.1 -> exists v, token_value tok = Ok v.
Proof.
  destruct tok as [num k]. cbn [fst]. unfold token_value. cbn [fst snd].
  intros [ds Hd | ds fs Hd Hf].
  - rewrite (py_float_whole _ Hd). simpl. eauto.
  - rewrite (py_float_point _ _ Hd Hf). simpl. eauto.
Qed.

Lemma mapM_total {A B : Type} (f : A -> result B) (l : list A) :
  Forall (fun a => exists b, f a = Ok b) l -> exists bs, mapM f l = Ok bs.
Proof.
  induction 1 as [|a l [b Hb] _ [bs Hbs]]; simpl.
  - eauto.
  - rewrite Hb. simpl. rewrite Hbs. simpl. eauto.
Qed.

(** No text makes the extraction of the candidates raise. *)
Lemma candidate_values_total (s : text) :
  exists vs, candidate_values s = Ok vs.
Proof.
  unfold candidate_values. apply mapM_total.
  eapply List.Forall_impl; [|apply findall_numbers_tokens].
  intros tok. apply token_value_total.
Qed.

Lemma parse_salary_returns (s : value) : exists sal, parse_salary s = Ok sal.
Proof.
  destruct s as [| | z | t]; simpl; eauto.
  destruct (negb _ || negb _); [eauto|].
  destruct (candidate_values_total (lower (remove_char "," t))) as [vs ->].
  simpl. destruct vs as [|v [|v' vs]]; eauto.
Qed.

Lemma parse_salary_total (s : value) : exists sal, parse_salary s = Ok sal.
Proof. exact (parse_salary_returns s). Qed.

(** ** Minimum and maximum *)

Lemma Qltb_true (a b : Q) : Qltb a b = true <-> (a < b)%Q.
Proof.
  unfold Qltb. rewrite negb_true_iff. split.
  - intros H. apply Qnot_le_lt. intros C. apply Qle_bool_iff in C. congruence.
  - intros H. destruct (Qle_bool b a) eqn:E; [|reflexivity].
    apply Qle_bool_iff in E. exfalso. exact (Qlt_not_le _ _ H E).
Qed.

Lemma Qltb_false (a b : Q) : Qltb a b = false <-> (b <= a)%Q.
Proof.
  unfold Qltb. rewrite negb_false_iff. apply Qle_bool_iff.
Qed.

Lemma py_min_fold (rest : list Q) (m : Q) :
  let r := fold_left (fun m x => if Qltb x m then x else m) rest m in
  (r <= m)%Q /\ (forall x, In x rest -> (r <= x)%Q) /\ (r = m \/ In r rest).
Proof.
  revert m. induction rest as [|x rest IH]; intros m; simpl.
  - split; [apply Qle_refl | split; [intros ? [] | left; reflexivity]].
  - destruct (IH (if Qltb x m then x else m)) as [H1 [H2 H3]].
    destruct (Qltb x m) eqn:E.
    + apply Qltb_true in E. repeat split.
      * apply Qle_trans with x; [exact H1 | apply Qlt_le_weak, E].
      * intros y [<- | Hy]; [exact H1 | exact (H2 y Hy)].
      * destruct H3 as [-> | H3]; right; [left; reflexivity | right; exact H3].
    + apply Qltb_false in E. repeat split.
      * exact H1.
      * intros y [<- | Hy]; [apply Qle_trans with m; assumption | exact (H2 y Hy)].
      * destruct H3 as [-> | H3]; [left; reflexivity | right; right; exact H3].
Qed.

Lemma py_max_fold (rest : list Q) (m : Q) :
  let r := fold_left (fun m x => if Qltb m x then x else m) rest m in
  (m <= r)%Q /\ (forall x, In x rest -> (x <= r)%Q) /\ (r = m \/ In r rest).
Proof.
  revert m. induction rest as [|x rest IH]; intros m; simpl.
  - split; [apply Qle_refl | split; [intros ? [] | left; reflexivity]].
  - destruct (IH (if Qltb m x then x else m)) as [H1 [H2 H3]].
    destruct (Qltb m x) eqn:E.
    + apply Qltb_true in E. repeat split.
      * apply Qle_trans with x; [apply Qlt_le_weak, E | exact H1].
      * intros y [<- | Hy]; [exact H1 | exact (H2 y Hy)].
      * destruct H3 as [-> | H3]; right; [left; reflexivity | right; exact H3].
    + apply Qltb_false in E. repeat split.
      * exact H1.
      * intros y [<- | Hy]; [apply Qle_trans with m; assumption | exact (H2 y Hy)].
      * destruct H3 as [-> | H3]; [left; reflexivity | right; right; exact H3].
Qed.



Lemma py_min_le_max (v : Q) (rest : list Q) :
  (py_min v rest <= py_max v rest)%Q.
Proof.
  destruct (py_min_fold rest v) as [H1 _].
  destruct (py_max_fold rest v) as [H2 _].
  exact (Qle_trans _ _ _ H1 H2).
Qed.

(** ** The blank test *)

Lemma findall_no_digit (s : text) :
  existsb is_digit s = false -> findall_numbers s = [].
Proof.
  induction s as [|c s IH]; intros H; rewrite findall_numbers_step;
    [reflexivity|].
  simpl in H. apply orb_false_iff in H as [Hc Hs].
  unfold match_number. simpl. rewrite Hc. exact (IH Hs).
Qed.

Lemma existsb_digit_clean (c0 : ascii) (t : text) :
  existsb is_digit (lower (remove_char c0 t)) = true ->
  existsb is_digit t = true.
Proof.
  induction t as [|c t IH]; simpl; [discriminate|].
  destruct (negb (Ascii.eqb c c0)); simpl; rewrite ?orb_true_iff.
  - intros [H | H]; [left; exact (digit_of_lower _ H) | right; exact (IH H)].
  - intros H. right. exact (IH H).
Qed.

Lemma nonspace_nonblank (t : text) (c : ascii) :
  In c t -> is_space c = false ->
  negb (truthy (VStr t)) || negb (truthy (VStr (strip t))) = false.
Proof.
  intros Hin Hc.
  destruct t as [|c' t']; [destruct Hin|].
  destruct (strip (c' :: t')) eqn:E; [|reflexivity].
  apply strip_nil_whitespace in E. unfold whitespace in E.
  rewrite List.Forall_forall in E. specialize (E c Hin).
  rewrite Hc in E. discriminate.
Qed.

Lemma digit_nonblank (t : text) :
  existsb is_digit t = true ->
  negb (truthy (VStr t)) || negb (truthy (VStr (strip t))) = false.
Proof.
  intros H. apply existsb_exists in H as [c [Hin Hc]].
  exact (nonspace_nonblank t c Hin (digit_not_space c Hc)).
Qed.

Lemma candidates_have_digit (t : text) (v : Q) (vs : list Q) :
  candidate_values (lower (remove_char "," t)) = Ok (v :: vs) ->
  existsb is_digit t = true.
Proof.
  intros H. apply (existsb_digit_clean ","). apply not_false_iff_true.
  intros C. unfold candidate_values in H.
  rewrite (findall_no_digit _ C) in H. discriminate.
Qed.

(** [parse_salary] on a text from which candidates are extracted. *)
Lemma parse_salary_candidates (t : text) (v : Q) (vs : list Q) :
  candidate_values (lower (remove_char "," t)) = Ok (v :: vs) ->
  parse_salary (VStr t) =
  let currency := detect_currency t (lower (remove_char "," t)) in
  match vs with
  | [] => Ok (Salary (Some v) (Some v) currency)
  | _ :: _ => Ok (Salary (Some (py_min v vs)) (Some (py_max v vs)) currency)
  end.
Proof.
  intros H. unfold parse_salary.
  rewrite (digit_nonblank t (candidates_have_digit t v vs H)), H.
  destruct vs; reflexivity.
Qed.

(** ** Decimal literals *)











Lemma literal_nonempty (a : text) (v : Q) : decimal_literal a v -> a <> [].
Proof.
  intros [ds [Hne _] | ds fs [Hne _] _]; [exact Hne|].
  destruct ds; [contradiction | discriminate].
Qed.

Lemma literal_has_digit (a : text) (v : Q) (rest : text) :
  decimal_literal a v -> existsb is_digit (a ++ rest) = true.
Proof.
  intros [ds [Hne Hd] | ds fs [Hne Hd] _];
    (destruct ds as [|d ds]; [contradiction|]);
    inversion Hd as [|? ? Hd1 _]; subst; simpl; rewrite Hd1; reflexivity.
Qed.













(** ** Currency *)

(** C2, at a text with the Euro sign and neither "$" nor "usd": no
    currency is reported. *)
Theorem parse_salary_euro_sign :
  contains EURO_SIGN (EURO_SIGN ++ str "50000") = true /\
  contains (str "$") (EURO_SIGN ++ str "50000") = false /\
  contains (str "usd") (lower (EURO_SIGN ++ str "50000")) = false /\
  parse_salary (VStr (EURO_SIGN ++ str "50000"))
  = Ok (Salary (Some 50000%Q) (Some 50000%Q) None).
Proof. repeat split; vm_compute; reflexivity. Qed.

Lemma remove_char_app (c : ascii) (a b : text) :
  remove_char c (a ++ b) = remove_char c a ++ remove_char c b.
Proof. unfold remove_char. apply List.filter_app. Qed.

Lemma letter_of_lower (c x : ascii) :
  lower_char c = x -> is_lower x = true ->
  is_space c = false /\ c <> ",".
Proof.
  intros <-. destruct c as [[] [] [] [] [] [] [] []]; intros H;
    first [discriminate H | split; [reflexivity | discriminate]].
Qed.

(** A piece that is "eur" up to case has no comma and no space in it. *)
Lemma eur_piece (w : text) :
  lower w = str "eur" ->
  remove_char "," w = w /\ exists c, In c w /\ is_space c = false.
Proof.
  destruct w as [|a [|b [|c [|d w]]]]; try discriminate.
  intros [= Ha Hb Hc].
  destruct (letter_of_lower a _ Ha eq_refl) as [Sa Ca].
  destruct (letter_of_lower b _ Hb eq_refl) as [_ Cb].
  destruct (letter_of_lower c _ Hc eq_refl) as [_ Cc].
  split; [|exists a; split; [left; reflexivity | exact Sa]].
  unfold remove_char. simpl.
  destruct (Ascii.eqb_spec a ","); [contradiction|].
  destruct (Ascii.eqb_spec b ","); [contradiction|].
  destruct (Ascii.eqb_spec c ","); [contradiction|]. reflexivity.
Qed.

(** The other half of the detection: a text in which "eur" occurs up to
    case, with no "$" in it and no "usd" in its lower-cased form with the
    commas taken out, is in Euro. *)
Lemma parse_salary_eur (t : text) :
  occurs_ci (str "eur") t ->
  contains (str "$") t = false ->
  contains (str "usd") (lower (remove_char "," t)) = false ->
  exists sal,
    parse_salary (VStr t) = Ok sal /\ sal_currency sal = Some (str "EUR").
Proof.
  intros [pre [w [post [-> Hw]]]] Hd Hu.
  change (lower (str "eur")) with (str "eur") in Hw.
  destruct (eur_piece w Hw) as [Hrc [c [Hin Hc]]].
  assert (Hcur : detect_currency (pre ++ w ++ post)
                   (lower (remove_char "," (pre ++ w ++ post)))
                 = Some (str "EUR")).
  { unfold detect_currency. rewrite Hd, Hu. cbn [orb].
    replace (contains (str "eur")
               (lower (remove_char "," (pre ++ w ++ post)))) with true;
      [rewrite orb_true_r; reflexivity|].
    symmetry. apply contains_spec.
    exists (lower (remove_char "," pre)), (lower (remove_char "," post)).
    rewrite !remove_char_app, !lower_app, Hrc, Hw. reflexivity. }
  unfold parse_salary.
  rewrite (nonspace_nonblank (pre ++ w ++ post) c); [| |exact Hc].
  - rewrite Hcur.
    destruct (candidate_values_total
                (lower (remove_char "," (pre ++ w ++ post)))) as [vs ->].
    cbn [bind]. destruct vs as [|v [|v' vs]]; eexists; split; reflexivity.
  - apply in_or_app. right. apply in_or_app. left. exact Hin.
Qed.

Lemma parse_salary_eur_witness :
  exists sal,
    parse_salary (VStr (str "45,000 - 60,000 EUR per year")) = Ok sal /\
    sal_currency sal = Some (str "EUR").
Proof.
  apply parse_salary_eur.
  - exists (str "45,000 - 60,000 "), (str "EUR"), (str " per year").
    split; reflexivity.
  - reflexivity.
  - reflexivity.
Defined.

(** ** Bounds *)

Lemma parse_salary_bounds (s : value) (sal : salary) (m M : Q) :
  parse_salary s = Ok sal ->
  sal_min sal = Some m -> sal_max sal = Some M -> (m <= M)%Q.
Proof.
  destruct s as [| | z | t]; simpl; try (intros [= <-]; discriminate).
  destruct (negb _ || negb _); [intros [= <-]; discriminate|].
  destruct (candidate_values (lower (remove_char "," t))) as [vs|e];
    [|discriminate].
  cbn [bind]. destruct vs as [|v [|v' vs]]; intros [= <-];
    cbn [sal_min sal_max].
  - discriminate.
  - intros [= <-] [= <-]. apply Qle_refl.
  - intros [= <-] [= <-]. exact (py_min_le_max v (v' :: vs)).
Qed.

End SalaryFacts.

(* ================================================================== *)
(** * The skill extractor *)
(* ================================================================== *)

Module SkillFacts.

Import Transformer Spec TextFacts.

(** ** The order of texts *)

Lemma text_compare_refl (a : text) : text_compare a a = Eq.
Proof.
  induction a as [|x a IH]; simpl; [reflexivity|].
  rewrite N.compare_refl. exact IH.
Qed.

Lemma text_leb_total (a b : text) : text_leb a b = true \/ text_leb b a = true.
Proof.
  unfold text_leb. revert b; induction a as [|x a IH]; intros [|y b]; simpl;
    auto.
  destruct (N.compare_spec (code x) (code y)) as [E | L | G].
  - rewrite E, N.compare_refl. apply IH.
  - left. reflexivity.
  - right. apply N.compare_lt_iff in G. rewrite G. reflexivity.
Qed.

Lemma text_leb_trans (a b c : text) :
  text_leb a b = true -> text_leb b c = true -> text_leb a c = true.
Proof.
  unfold text_leb. revert b c; induction a as [|x a IH]; intros [|y b] [|z c];
    simpl; try reflexivity; try discriminate.
  destruct (N.compare_spec (code x) (code y)) as [E1 | L1 | G1];
    destruct (N.compare_spec (code y) (code z)) as [E2 | L2 | G2];
    try discriminate; intros H1 H2.
  - rewrite E1, E2, N.compare_refl. exact (IH b c H1 H2).
  - rewrite E1. apply N.compare_lt_iff in L2. rewrite L2. reflexivity.
  - rewrite <- E2. apply N.compare_lt_iff in L1. rewrite L1. reflexivity.
  - assert (L : (code x < code z)%N) by lia.
    apply N.compare_lt_iff in L. rewrite L. reflexivity.
Qed.

#[local] Instance text_le_total : Total text_le.
Proof. intros a b. apply text_leb_total. Qed.

#[local] Instance text_le_trans : Transitive text_le.
Proof. intros a b c. apply text_leb_trans. Qed.

(** ** sorted(set) *)

Lemma sorted_sorted (s : gset text) : StronglySorted text_le (sorted s).
Proof. apply StronglySorted_merge_sort; apply _. Qed.

Lemma sorted_NoDup (s : gset text) : NoDup (sorted s).
Proof.
  unfold sorted. rewrite merge_sort_Permutation. apply NoDup_elements.
Qed.

Lemma sorted_In (s : gset text) (x : text) : In x (sorted s) <-> x ∈ s.
Proof.
  rewrite <- list_elem_of_In. unfold sorted.
  rewrite merge_sort_Permutation. apply elem_of_elements.
Qed.

(** ** The loop *)

Lemma step_elements (tl : text) (tc : value) (set set' : gset text)
  (skill : text) :
  extract_skills_step tl tc set skill = Ok set' ->
  forall x, x ∈ set' -> x ∈ set \/ x = lower skill.
Proof.
  unfold extract_skills_step.
  destruct (search_word (lower skill) tl).
  - intros E x. injection E as <-. rewrite elem_of_union, elem_of_singleton.
    tauto.
  - destruct (py_lower tc) as [tags_lower|e]; [|discriminate]. cbn [bind].
    destruct (search_word (lower skill) tags_lower); intros E x;
      injection E as <-; [|tauto].
    rewrite elem_of_union, elem_of_singleton. tauto.
Qed.

Lemma loop_elements (tl : text) (tc : value) (cands : list text)
  (set set' : gset text) :
  foldM (extract_skills_step tl tc) cands set = Ok set' ->
  forall x, x ∈ set' ->
            x ∈ set \/ exists skill, In skill cands /\ x = lower skill.
Proof.
  revert set; induction cands as [|skill cands IH]; intros set; simpl.
  - intros [= <-] x Hx. left. exact Hx.
  - destruct (extract_skills_step tl tc set skill) as [set1|e] eqn:Hstep;
      [|discriminate].
    cbn [bind]. intros Hloop x Hx.
    destruct (IH set1 Hloop x Hx) as [H1 | [sk [Hin Hsk]]].
    + destruct (step_elements _ _ _ _ _ Hstep x H1) as [H | H];
        [left; exact H | right; exists skill; split; [left; reflexivity | exact H]].
    + right. exists sk. split; [right; exact Hin | exact Hsk].
Qed.

Lemma loop_total (tl tags : text) (cands : list text) (set : gset text) :
  exists set', foldM (extract_skills_step tl (VStr tags)) cands set = Ok set'.
Proof.
  revert set; induction cands as [|skill cands IH]; intros set; simpl.
  - eauto.
  - unfold extract_skills_step at 1. cbn [py_lower bind].
    destruct (search_word (lower skill) tl); cbn [bind]; [apply IH|].
    destruct (search_word (lower skill) (lower tags)); cbn [bind]; apply IH.
Qed.

Lemma por_text (s : option text) :
  exists t, por (of_optional s) (VStr []) = VStr t.
Proof. destruct s as [[|c t]|]; simpl; eauto. Qed.


Lemma lower_nil (s : text) : lower s = [] -> s = [].
Proof. destruct s; [reflexivity | discriminate]. Qed.

Lemma search_word_empty_text (w : text) : search_word w [] = false.
Proof. reflexivity. Qed.

Lemma loop_empty_text (cands : list text) (set : gset text) :
  foldM (extract_skills_step [] (VStr [])) cands set = Ok set.
Proof.
  induction cands as [|skill cands IH]; [reflexivity|].
  cbn [foldM]. unfold extract_skills_step at 1.
  rewrite search_word_empty_text. cbn [py_lower bind lower map].
  rewrite search_word_empty_text. cbn [bind]. exact IH.
Qed.

(** Matching raises nothing when description and tags are texts. *)
Lemma extract_skills_total (txt tags : option text)
  (extra_skills : option (list text)) :
  exists l,
    extract_skills (of_optional txt) (of_optional tags) extra_skills = Ok l.
Proof.
  unfold extract_skills.
  destruct (por_text txt) as [t ->]. destruct (por_text tags) as [g ->].
  cbn [py_lower bind].
  destruct (loop_total (lower t) g
              (COMMON_SKILLS ++ default [] extra_skills) ∅) as [set ->].
  cbn [bind]. eauto.
Qed.




End SkillFacts.

(* ================================================================== *)
(** * clean_text *)
(* ================================================================== *)

Module CleanFacts.

Import Transformer Spec TextFacts.

(** The substitution of the source deletes the CR of each CR LF pair. *)
Lemma sub_crlf_spec (s : text) : sub_crlf s = crlf_to_lf s.
Proof.
  enough (H : sub_crlf s = crlf_to_lf s /\
              forall c, sub_crlf (c :: s) = crlf_to_lf (c :: s))
    by exact (proj1 H).
  induction s as [|d s [IH1 IH2]].
  - split; [reflexivity|]. intros c. simpl.
    rewrite andb_false_r. reflexivity.
  - split; [apply IH2|]. intros c.
    cbn [sub_crlf crlf_to_lf].
    destruct (Ascii.eqb c CR && Ascii.eqb d LF) eqn:E.
    + apply andb_true_iff in E as [_ Ed]. apply Ascii.eqb_eq in Ed. subst d.
      change (Ascii.eqb LF CR) with false. cbn [andb].
      rewrite IH1. reflexivity.
    + f_equal. exact (IH2 d).
Qed.

(** The substitution of the source keeps one LF of each run. *)
Lemma sub_runs_spec (s : text) :
  sub_runs is_lf LF false s = squeeze_newlines s.
Proof.
  enough (H : sub_runs is_lf LF false s = squeeze_newlines s /\
              LF :: sub_runs is_lf LF true s = squeeze_newlines (LF :: s))
    by exact (proj1 H).
  induction s as [|c s [IH1 IH2]]; [split; reflexivity|].
  assert (Hc : is_lf c = true -> c = LF) by apply Ascii.eqb_eq.
  split.
  - cbn [sub_runs]. destruct (is_lf c) eqn:E.
    + rewrite (Hc eq_refl). exact IH2.
    + cbn [squeeze_newlines]. rewrite E. cbn [andb]. f_equal. exact IH1.
  - cbn [sub_runs squeeze_newlines]. change (is_lf LF) with true.
    destruct (is_lf c) eqn:E; cbn [andb].
    + rewrite (Hc eq_refl) in *. exact IH2.
    + rewrite ?E. cbn [andb]. f_equal. f_equal. exact IH1.
Qed.

Lemma squeeze_head (s : text) : head (squeeze_newlines s) = head s.
Proof.
  induction s as [|c s IH]; [reflexivity|]. cbn [squeeze_newlines].
  destruct (is_lf c) eqn:E; [|reflexivity].
  destruct s as [|d s]; [reflexivity|].
  destruct (is_lf d) eqn:Ed; [|reflexivity]. cbn [andb].
  rewrite IH. simpl. f_equal.
  apply Ascii.eqb_eq in E, Ed. congruence.
Qed.

Lemma squeeze_no_adjacent (s : text) :
  no_adjacent_newlines (squeeze_newlines s).
Proof.
  unfold no_adjacent_newlines.
  induction s as [|c s IH]; intros a b H.
  - destruct a; discriminate.
  - cbn [squeeze_newlines] in H.
    destruct (is_lf c && match s with d :: _ => is_lf d | [] => false end)
      eqn:E; [exact (IH a b H)|].
    destruct a as [|x a].
    + simpl in H. injection H as -> H.
      pose proof (squeeze_head s) as Hh. rewrite H in Hh.
      destruct s as [|d s]; [discriminate|]. simpl in Hh.
      injection Hh as <-. discriminate E.
    + simpl in H. injection H as _ H. exact (IH a b H).
Qed.

Lemma no_adjacent_piece (ws1 t ws2 : text) :
  no_adjacent_newlines (ws1 ++ t ++ ws2) -> no_adjacent_newlines t.
Proof.
  intros H a b E. apply (H (ws1 ++ a) (b ++ ws2)).
  rewrite E, <- !app_assoc. reflexivity.
Qed.

(** On a text or None, [clean_text] returns a text and raises nothing.
    The result is empty for None and for the empty text, has no
    whitespace at its ends and no two newlines in a row; for an ASCII
    text it is the argument with each CR LF replaced by LF and each run
    of newlines by one newline, less the whitespace at both ends. *)
Theorem clean_text_spec (s : option text) :
  exists t,
    clean_text (of_optional s) = Ok t /\
    (s = None \/ s = Some [] -> t = []) /\
    trimmed t /\
    no_adjacent_newlines t /\
    (forall u, s = Some u -> ascii_text u ->
       exists ws1 ws2,
         whitespace ws1 /\ whitespace ws2 /\
         squeeze_newlines (crlf_to_lf u) = ws1 ++ t ++ ws2).
Proof.
  assert (Empty : trimmed [] /\ no_adjacent_newlines []).
  { split; [split|]; intros a b H; destruct a, b; discriminate. }
  destruct s as [[|c u]|]; cbn [of_optional].
  - exists []. split; [reflexivity|]. split; [reflexivity|].
    split; [apply Empty | split; [apply Empty|]].
    intros u [= <-] _. exists [], []. repeat split; constructor.
  - exists (strip (sub_runs is_lf LF false (sub_crlf (c :: u)))).
    split; [reflexivity|].
    destruct (strip_split (sub_runs is_lf LF false (sub_crlf (c :: u))))
      as [ws1 [ws2 [E [H1 H2]]]].
    rewrite sub_crlf_spec, sub_runs_spec in *.
    split; [intros [H | H]; discriminate H|].
    split; [apply strip_trimmed|]. split.
    + apply (no_adjacent_piece ws1 _ ws2). rewrite <- E.
      apply squeeze_no_adjacent.
    + intros u' [= <-] _. exists ws1, ws2. auto.
  - exists []. split; [reflexivity|]. split; [reflexivity|].
    split; [apply Empty | split; [apply Empty|]]. discriminate.
Qed.

Lemma clean_text_spec_witness :
  exists t,
    clean_text (VStr (str " a" ++ CR :: LF :: LF :: str "b  ")) = Ok t /\
    trimmed t /\ no_adjacent_newlines t /\
    exists ws1 ws2,
      whitespace ws1 /\ whitespace ws2 /\
      str " a" ++ LF :: str "b  " = ws1 ++ t ++ ws2.
Proof.
  destruct (clean_text_spec
              (Some (str " a" ++ CR :: LF :: LF :: str "b  ")))
    as [t [H1 [_ [H3 [H4 H5]]]]].
  exists t. split; [exact H1|]. split; [exact H3|]. split; [exact H4|].
  apply (H5 _ eq_refl). apply ascii_textb_spec. reflexivity.
Defined.

(** C9, at the NaN that stands for an empty cell of a CSV file, and at
    a number: the argument is true and no text, it reaches [re.sub],
    and [clean_text] raises [TypeError] where the claim has it return a
    text. *)
Theorem clean_text_raises_on_number :
  clean_text (VInt 5) = Err TypeError /\ clean_text VNaN = Err TypeError.
Proof. split; reflexivity. Qed.

End CleanFacts.

(* ================================================================== *)
(** * Deduplication *)
(* ================================================================== *)

Module DedupFacts.

Import Transformer Spec.

Section DropDuplicates.

Context {K : Type} `{EqDecision K} (key : row -> K).




Lemma dd_sublist (seen : list K) (df : list row) :
  drop_duplicates_from key seen df `sublist_of` df.
Proof.
  revert seen; induction df as [|r df IH]; intros seen; simpl.
  - constructor.
  - destruct (decide (key r ∈ seen)); constructor; apply IH.
Qed.

Lemma dd_fresh (seen : list K) (df : list row) (r : row) :
  r ∈ drop_duplicates_from key seen df -> key r ∉ seen.
Proof.
  revert seen; induction df as [|r' df IH]; intros seen; simpl.
  - intros H. inversion H.
  - destruct (decide (key r' ∈ seen)) as [Hin | Hout]; [apply IH|].
    rewrite elem_of_cons. intros [-> | H]; [exact Hout|].
    apply IH in H. rewrite elem_of_cons in H. tauto.
Qed.

Lemma dd_NoDup (seen : list K) (df : list row) :
  NoDup (key <$> drop_duplicates_from key seen df).
Proof.
  revert seen; induction df as [|r df IH]; intros seen; simpl.
  - constructor.
  - destruct (decide (key r ∈ seen)); [apply IH|].
    rewrite fmap_cons. apply NoDup_cons. split; [|apply IH].
    rewrite list_elem_of_fmap. intros [r' [E H]].
    apply dd_fresh in H. rewrite E, elem_of_cons in H. tauto.
Qed.

Lemma dd_fixed (seen : list K) (l : list row) :
  (forall r, r ∈ l -> key r ∉ seen) -> NoDup (key <$> l) ->
  drop_duplicates_from key seen l = l.
Proof.
  revert seen; induction l as [|r l IH]; intros seen Hfresh Hnd; simpl;
    [reflexivity|].
  rewrite fmap_cons in Hnd. apply NoDup_cons in Hnd as [Hr Hnd].
  destruct (decide (key r ∈ seen)) as [Hin | _].
  - exfalso. apply (Hfresh r); [left | exact Hin].
  - f_equal. apply IH; [|exact Hnd].
    intros r' Hr'. rewrite elem_of_cons. intros [E | Hin].
    + apply Hr. rewrite <- E. apply list_elem_of_fmap. eauto.
    + apply (Hfresh r'); [right; exact Hr' | exact Hin].
Qed.


Lemma dd_keys (seen : list K) (df : list row) (r : row) :
  r ∈ df ->
  key r ∈ seen \/ key r ∈ key <$> drop_duplicates_from key seen df.
Proof.
  revert seen; induction df as [|r' df IH]; intros seen; simpl.
  - intros H. inversion H.
  - rewrite elem_of_cons. intros [-> | Hin].
    + destruct (decide (key r' ∈ seen)); [left; assumption|].
      right. rewrite fmap_cons. left.
    + destruct (decide (key r' ∈ seen)) as [Hs | Hs]; [apply IH, Hin|].
      destruct (IH (key r' :: seen) Hin) as [H | H].
      * rewrite elem_of_cons in H. destruct H as [-> | H]; [|left; exact H].
        right. rewrite fmap_cons. left.
      * right. rewrite fmap_cons. right. exact H.
Qed.



End DropDuplicates.

(** Keys under an injection give the same survivors. *)
Lemma dd_inj {K L : Type} `{EqDecision K} `{EqDecision L} (f : K -> L)
  (key : row -> K) (seen : list K) (df : list row) :
  (forall a b, f a = f b -> a = b) ->
  drop_duplicates_from (fun r => f (key r)) (f <$> seen) df
  = drop_duplicates_from key seen df.
Proof.
  intros Hinj. revert seen; induction df as [|r df IH]; intros seen; simpl;
    [reflexivity|].
  destruct (decide (f (key r) ∈ f <$> seen)) as [H1 | H1];
    destruct (decide (key r ∈ seen)) as [H2 | H2].
  - apply IH.
  - exfalso. apply list_elem_of_fmap in H1 as [k [E Hk]].
    apply Hinj in E. subst k. contradiction.
  - exfalso. apply H1, list_elem_of_fmap. eauto.
  - f_equal. rewrite <- fmap_cons. apply IH.
Qed.

Lemma dedupe_by_id (df : list row) :
  by_id df = true -> dedupe df = drop_duplicates id_key df.
Proof. unfold dedupe. intros ->. reflexivity. Qed.

Lemma dedupe_by_triple (df : list row) :
  by_id df = false -> dedupe df = drop_duplicates triple_key df.
Proof. unfold dedupe. intros ->. reflexivity. Qed.

(** The deduplication is [drop_duplicates] on the key the frame calls
    for. *)
Lemma dedupe_key (df : list row) :
  dedupe df = drop_duplicates (dedup_key df) df.
Proof.
  unfold dedupe, dedup_key, drop_duplicates. destruct (by_id df).
  - symmetry.
    apply (dd_inj (fun k => inl k : option value + text * text * text)
             id_key [] df).
    intros a b [= ->]. reflexivity.
  - symmetry.
    apply (dd_inj (fun k => inr k : option value + text * text * text)
             triple_key [] df).
    intros a b [= ->]. reflexivity.
Qed.

Lemma any_id_true (df : list row) :
  any_id df = true <-> exists r, r ∈ df /\ isna (row_id r) = false.
Proof.
  unfold any_id. rewrite existsb_exists. split.
  - intros [r [Hin Hr]]. exists r. rewrite list_elem_of_In.
    split; [exact Hin | apply negb_true_iff, Hr].
  - intros [r [Hin Hr]]. exists r. rewrite <- list_elem_of_In.
    split; [exact Hin | apply negb_true_iff, Hr].
Qed.

Lemma any_id_false (df : list row) :
  any_id df = false -> forall r, r ∈ df -> isna (row_id r) = true.
Proof.
  intros H r Hin. destruct (isna (row_id r)) eqn:E; [reflexivity|].
  assert (any_id df = true) by (apply any_id_true; eauto). congruence.
Qed.

Lemma by_id_true (df : list row) : by_id df = true <-> any_id df = true.
Proof.
  unfold by_id. destruct df; simpl; [|reflexivity].
  split; discriminate.
Qed.

Lemma dedupe_sublist (df : list row) : dedupe df `sublist_of` df.
Proof. rewrite dedupe_key. apply dd_sublist. Qed.





Lemma key_lookup {K : Type} (key : row -> K) (l : list row) (i j : nat)
  (r1 r2 : row) :
  NoDup (key <$> l) ->
  l !! i = Some r1 -> l !! j = Some r2 -> key r1 = key r2 -> i = j.
Proof.
  intros Hnd H1 H2 E.
  apply (NoDup_lookup (key <$> l) i j (key r1) Hnd).
  - rewrite list_lookup_fmap, H1. reflexivity.
  - rewrite list_lookup_fmap, H2, E. reflexivity.
Qed.

(** C1, as the code has it: after the deduplication a non-null identifier
    occurs once at most, and two survivors without identifier differ in
    (title, company, location).  When no record has an identifier, every
    (title, company, location) of the input survives, so that two records
    that differ in it both do.  When some record has one, the key is the
    identifier alone, and at most one record without identifier
    survives. *)
Theorem dedupe_unique (df : list row) :
  (forall i j r1 r2,
      dedupe df !! i = Some r1 -> dedupe df !! j = Some r2 ->
      ~ null_id r1 -> row_id r1 = row_id r2 -> i = j) /\
  (forall i j r1 r2,
      dedupe df !! i = Some r1 -> dedupe df !! j = Some r2 ->
      null_id r1 -> null_id r2 -> triple_key r1 = triple_key r2 -> i = j) /\
  (any_id df = false ->
   forall r, r ∈ df ->
             exists r', r' ∈ dedupe df /\ triple_key r' = triple_key r) /\
  (any_id df = true ->
   forall i j r1 r2,
     dedupe df !! i = Some r1 -> dedupe df !! j = Some r2 ->
     null_id r1 -> null_id r2 -> i = j).
Proof.
  unfold null_id.
  assert (ById : by_id df = true ->
    forall i j r1 r2,
      dedupe df !! i = Some r1 -> dedupe df !! j = Some r2 ->
      id_key r1 = id_key r2 -> i = j).
  { intros B i j r1 r2 H1 H2 E. rewrite (dedupe_by_id df B) in H1, H2.
    exact (key_lookup id_key _ i j r1 r2 (dd_NoDup id_key [] df) H1 H2 E). }
  assert (Null : forall r1 r2, isna (row_id r1) = true ->
                   isna (row_id r2) = true -> id_key r1 = id_key r2).
  { intros r1 r2 N1 N2. unfold id_key. rewrite N1, N2. reflexivity. }
  split; [|split; [|split]].
  - intros i j r1 r2 H1 H2 Hn E. destruct (by_id df) eqn:B.
    + apply (ById eq_refl i j r1 r2 H1 H2). unfold id_key. rewrite E.
      reflexivity.
    + exfalso. apply Hn.
      apply list_elem_of_lookup_2 in H1.
      pose proof (elem_of_sublist _ _ _ H1 (dedupe_sublist df)) as Hdf.
      destruct (isna (row_id r1)) eqn:N; [reflexivity|].
      apply not_true_iff_false in B. exfalso.
      apply B, by_id_true, any_id_true. eauto.
  - intros i j r1 r2 H1 H2 N1 N2 E. destruct (by_id df) eqn:B.
    + exact (ById eq_refl i j r1 r2 H1 H2 (Null r1 r2 N1 N2)).
    + rewrite (dedupe_by_triple df B) in H1, H2.
      exact (key_lookup triple_key _ i j r1 r2
               (dd_NoDup triple_key [] df) H1 H2 E).
  - intros A r Hin.
    assert (B : by_id df = false).
    { apply not_true_iff_false. intros C. apply by_id_true in C. congruence. }
    rewrite (dedupe_by_triple df B).
    destruct (dd_keys triple_key [] df r Hin) as [H | H]; [inversion H|].
    apply list_elem_of_fmap in H as [r' [E Hr']]. eauto.
  - intros A i j r1 r2 H1 H2 N1 N2.
    apply by_id_true in A.
    exact (ById A i j r1 r2 H1 H2 (Null r1 r2 N1 N2)).
Qed.

(** Three postings: one with an identifier, two without that differ in
    their titles. *)
Definition posting_with_id : gmap string value :=
  <[ "id" := VInt 1 ]> {[ "title" := VStr (str "Data Engineer") ]}.

Definition posting_analyst : gmap string value :=
  {[ "title" := VStr (str "Data Analyst") ]}.

Definition posting_scientist : gmap string value :=
  {[ "title" := VStr (str "Data Scientist") ]}.

(** C1 as stated fails: of two records without identifier that differ in
    their titles, the second is dropped when another record has an
    identifier. *)
Lemma dedupe_drops_null_id_record :
  match candidate_rows (fun _ => None) None
          [posting_with_id; posting_analyst; posting_scientist] with
  | Ok [a; b; c] =>
      ~ null_id a /\ null_id b /\ null_id c /\
      triple_key b <> triple_key c /\
      transform_records (fun _ => None)
        [posting_with_id; posting_analyst; posting_scientist] None
      = Ok [a; b]
  | _ => False
  end.
Proof.
  vm_compute. repeat split; try reflexivity; intros H; discriminate H.
Qed.

(** The rows the loop makes of a list of postings. *)
Definition rows_of (records : list (gmap string value)) : list row :=
  match candidate_rows (fun _ => None) None records with
  | Ok out => out
  | Err _ => []
  end.

Lemma dedupe_unique_witness :
  Forall (fun r => exists r',
            r' ∈ dedupe (rows_of [posting_analyst; posting_scientist]) /\
            triple_key r' = triple_key r)
    (rows_of [posting_analyst; posting_scientist]).
Proof.
  apply Forall_forall. intros r Hr.
  apply (proj1 (proj2 (proj2
           (dedupe_unique (rows_of [posting_analyst; posting_scientist]))))).
  - vm_compute. reflexivity.
  - exact Hr.
Defined.


End DedupFacts.

(* ================================================================== *)
(** * Records *)
(* ================================================================== *)

Module RecordFacts.

Import Transformer Spec TextFacts SalaryFacts SkillFacts DedupFacts.

Lemma mapM_length {A B : Type} (f : A -> result B) (l : list A)
  (bs : list B) :
  mapM f l = Ok bs -> length bs = length l.
Proof.
  revert bs; induction l as [|a l IH]; intros bs; simpl.
  - intros [= <-]. reflexivity.
  - destruct (f a) as [b|e]; [|discriminate]. cbn [bind].
    destruct (mapM f l) as [bs'|e]; [|discriminate]. cbn [bind].
    intros [= <-]. simpl. f_equal. apply IH. reflexivity.
Qed.

Lemma mapM_elem {A B : Type} (f : A -> result B) (l : list A)
  (bs : list B) (b : B) :
  mapM f l = Ok bs -> b ∈ bs -> exists a, a ∈ l /\ f a = Ok b.
Proof.
  revert bs; induction l as [|a l IH]; intros bs; simpl.
  - intros [= <-] H. inversion H.
  - destruct (f a) as [b'|e] eqn:Hfa; [|discriminate]. cbn [bind].
    destruct (mapM f l) as [bs'|e]; [|discriminate]. cbn [bind].
    intros [= <-]. rewrite elem_of_cons. intros [-> | Hb].
    + exists a. split; [left | exact Hfa].
    + destruct (IH bs' eq_refl Hb) as [a' [Ha' Hfa']].
      exists a'. split; [right; exact Ha' | exact Hfa'].
Qed.

(** The salary fields of a row are those [parse_salary] returned. *)
Lemma transform_record_salary (dp : text -> option text)
  (extra : option (list text)) (r : gmap string value) (x : row) :
  transform_record dp extra r = Ok x ->
  exists sal,
    parse_salary (get r "salary") = Ok sal /\
    row_salary_min x = sal_min sal /\ row_salary_max x = sal_max sal.
Proof.
  unfold transform_record.
  destruct (clean_text _) as [desc|e]; [|discriminate]. cbn [bind].
  destruct (clean_text _) as [ttl|e]; [|discriminate]. cbn [bind].
  destruct (clean_text _) as [company|e]; [|discriminate]. cbn [bind].
  destruct (standardize_location _) as [loc|e]; [|discriminate]. cbn [bind].
  destruct (parse_salary _) as [sal|e]; [|discriminate]. cbn [bind].
  destruct (extract_skills _ _ _) as [skills|e]; [|discriminate]. cbn [bind].
  destruct (infer_seniority _) as [sen|e]; [|discriminate]. cbn [bind].
  intros [= <-]. exists sal. repeat split.
Qed.

Lemma transform_records_rows (dp : text -> option text)
  (records : list (gmap string value)) (extra : option (list text))
  (df : list row) (x : row) :
  transform_records dp records extra = Ok df -> x ∈ df ->
  exists r, r ∈ records /\ transform_record dp extra r = Ok x.
Proof.
  unfold transform_records, candidate_rows.
  destruct (mapM _ records) as [out|e] eqn:Hout; [|discriminate].
  cbn [bind]. destruct out as [|y out]; [discriminate|].
  intros [= <-] Hx.
  apply (mapM_elem _ _ _ _ Hout).
  exact (elem_of_sublist _ _ _ Hx (dedupe_sublist _)).
Qed.

(** C6: whenever [parse_salary] returns both bounds, the minimum is at
    most the maximum; and so it is in every row [transform_records]
    returns that has both. *)
Theorem salary_bounds_ordered :
  (forall (s : value) (sal : salary) (m M : Q),
      parse_salary s = Ok sal ->
      sal_min sal = Some m -> sal_max sal = Some M -> (m <= M)%Q)
  /\
  (forall (dp : text -> option text) (records : list (gmap string value))
          (extra : option (list text)) (df : list row) (x : row) (m M : Q),
      transform_records dp records extra = Ok df -> x ∈ df ->
      row_salary_min x = Some m -> row_salary_max x = Some M ->
      (m <= M)%Q).
Proof.
  split; [exact parse_salary_bounds|].
  intros dp records extra df x m M Hdf Hx Hm HM.
  destruct (transform_records_rows _ _ _ _ _ Hdf Hx) as [r [_ Hr]].
  destruct (transform_record_salary _ _ _ _ Hr) as [sal [Hs [E1 E2]]].
  rewrite E1 in Hm. rewrite E2 in HM.
  exact (parse_salary_bounds _ _ _ _ Hs Hm HM).
Qed.

Lemma salary_bounds_ordered_witness :
  parse_salary (VStr (str "$120k - $80k"))
  = Ok (Salary (Some 80000%Q) (Some 120000%Q) (Some (str "USD"))) /\
  (80000 <= 120000)%Q.
Proof.
  split; [vm_compute; reflexivity|].
  apply (proj1 salary_bounds_ordered (VStr (str "$120k - $80k"))
           (Salary (Some 80000%Q) (Some 120000%Q) (Some (str "USD"))));
    vm_compute; reflexivity.
Defined.

(** A row of the CSV file the extractor writes, as pandas reads it back:
    the empty [tags] cell is NaN. *)
Definition csv_row_without_tags : gmap string value :=
  <[ "id" := VInt 1 ]>
    (<[ "title" := VStr (str "Data Engineer") ]> {[ "tags" := VNaN ]}).

(** The same with the title cell empty. *)
Definition csv_row_without_title : gmap string value :=
  <[ "id" := VInt 1 ]> {[ "title" := VNaN ]}.

(** C5, at records with a field that is no text: the loop raises, no
    row is produced, and [transform_records] raises with it. *)
Theorem candidate_rows_raises (dp : text -> option text)
  (extra : option (list text)) :
  candidate_rows dp extra [csv_row_without_tags] = Err AttributeError /\
  candidate_rows dp extra [csv_row_without_title] = Err TypeError /\
  transform_records dp [csv_row_without_tags] extra = Err AttributeError /\
  transform_records dp [csv_row_without_title] extra = Err TypeError.
Proof. repeat split; vm_compute; reflexivity. Qed.

(** On no record at all, the frame has no column to read on line 205. *)
Lemma transform_records_empty (dp : text -> option text)
  (extra : option (list text)) :
  candidate_rows dp extra [] = Ok [] /\
  transform_records dp [] extra = Err KeyError.
Proof. split; reflexivity. Qed.

(** ** Records whose text fields are texts *)

Definition TEXT_FIELDS : list string :=
  ["description_text"; "description"; "tags"; "title"; "company_name";
   "company"; "candidate_required_location"; "location"]%string.

(** Every field read as a text holds a text, or None, or is missing. *)
Definition textual (r : gmap string value) : Prop :=
  forall k, In k TEXT_FIELDS -> exists s, get r k = of_optional s.

Lemma por_textual (a b : value) :
  (exists s, a = of_optional s) -> (exists s, b = of_optional s) ->
  exists t, por (por a b) (VStr []) = VStr t.
Proof.
  intros [[[|c s]|] ->] [[[|d u]|] ->]; simpl; eauto.
Qed.

Lemma clean_text_total (t : text) : exists u, clean_text (VStr t) = Ok u.
Proof. destruct t; simpl; eauto. Qed.

Lemma standardize_location_total (t : text) :
  exists u, standardize_location (VStr t) = Ok u.
Proof.
  destruct t as [|c t]; [simpl; eauto|].
  unfold standardize_location. cbn [truthy negb].
  destruct (existsb _ _); eauto.
Qed.

Lemma infer_seniority_total (t : text) :
  exists b, infer_seniority (VStr t) = Ok b.
Proof.
  destruct t as [|c t]; [simpl; eauto|].
  unfold infer_seniority. cbn [truthy negb py_lower bind].
  destruct (find _ _); eauto.
Qed.

Lemma transform_record_textual (dp : text -> option text)
  (extra : option (list text)) (r : gmap string value) :
  textual r -> exists x, transform_record dp extra r = Ok x.
Proof.
  intros Hr. unfold transform_record.
  assert (F : forall k, In k TEXT_FIELDS -> exists s, get r k = of_optional s)
    by exact Hr.
  destruct (por_textual _ _ (F "description_text"%string ltac:(simpl; tauto))
              (F "description"%string ltac:(simpl; tauto))) as [d ->].
  destruct (clean_text_total d) as [desc ->]. cbn [bind].
  destruct (por_textual _ _ (F "title"%string ltac:(simpl; tauto))
              (ex_intro _ None eq_refl)) as [t Ht].
  assert (Ht' : exists t', por (get r "title") (VStr []) = VStr t').
  { destruct (F "title"%string ltac:(simpl; tauto)) as [[[|c u]|] ->];
      simpl; eauto. }
  clear t Ht. destruct Ht' as [t ->].
  destruct (clean_text_total t) as [ttl ->]. cbn [bind].
  destruct (por_textual _ _ (F "company_name"%string ltac:(simpl; tauto))
              (F "company"%string ltac:(simpl; tauto))) as [c ->].
  destruct (clean_text_total c) as [company ->]. cbn [bind].
  destruct (por_textual _ _
              (F "candidate_required_location"%string ltac:(simpl; tauto))
              (F "location"%string ltac:(simpl; tauto))) as [l ->].
  destruct (standardize_location_total l) as [loc ->]. cbn [bind].
  destruct (parse_salary_returns (get r "salary")) as [sal ->]. cbn [bind].
  assert (Hg : exists g, por (get r "tags") (VStr []) = VStr g).
  { destruct (F "tags"%string ltac:(simpl; tauto)) as [[[|c' u]|] ->];
      simpl; eauto. }
  destruct Hg as [g ->].
  destruct (extract_skills_total (Some desc) (Some g) extra) as [skills Hs].
  cbn [of_optional] in Hs. rewrite Hs. cbn [bind].
  destruct (infer_seniority_total ttl) as [sen ->]. cbn [bind].
  eauto.
Qed.

(** Where every text field holds a text or nothing, the loop raises
    nothing and appends one row for each record. *)
Lemma candidate_rows_textual (dp : text -> option text)
  (extra : option (list text)) (records : list (gmap string value)) :
  Forall textual records ->
  exists out,
    candidate_rows dp extra records = Ok out /\
    length out = length records.
Proof.
  intros H. unfold candidate_rows.
  destruct (mapM_total (transform_record dp extra) records) as [out Hout].
  - eapply List.Forall_impl; [|exact H].
    intros r. apply transform_record_textual.
  - exists out. split; [exact Hout | exact (mapM_length _ _ _ Hout)].
Qed.

Lemma candidate_rows_textual_witness :
  exists out,
    candidate_rows (fun _ => None) None [∅; posting_analyst] = Ok out /\
    length out = length [(∅ : gmap string value); posting_analyst].
Proof.
  apply candidate_rows_textual. constructor; [|constructor; [|constructor]].
  - intros k _. exists None. unfold get. rewrite lookup_empty. reflexivity.
  - intros k Hk. simpl in Hk.
    repeat (destruct Hk as [<- | Hk];
            [first [ exists None; vm_compute; reflexivity
                   | exists (Some (str "Data Analyst")); vm_compute;
                     reflexivity ]|]).
    destruct Hk.
Defined.

(** A record without any field gives the row of the defaults. *)
Lemma transform_record_defaults (dp : text -> option text)
  (extra : option (list text)) :
  transform_record dp extra ∅
  = Ok {| row_id := VNone; row_url := VNone; row_title := [];
          row_normalized_title := []; row_company_name := [];
          row_category := VNone; row_job_type := VNone;
          row_publication_date := None; row_location := [];
          row_remote := false; row_salary_min := None;
          row_salary_max := None; row_salary_currency := None;
          row_description := []; row_tags := VStr []; row_skills := [];
          row_seniority := []; row_raw_record := ∅ |}.
Proof.
  assert (G : forall k, get (∅ : gmap string value) k = VNone).
  { intros k. unfold get. rewrite lookup_empty. reflexivity. }
  assert (S : extract_skills (VStr []) (VStr []) extra = Ok []).
  { unfold extract_skills. cbn [por truthy py_lower bind lower map].
    rewrite loop_empty_text. reflexivity. }
  unfold transform_record. rewrite !G.
  cbn [por truthy clean_text negb bind]. rewrite S. reflexivity.
Qed.

End RecordFacts.

(* ================================================================== *)
(** * standardize_location *)
(* ================================================================== *)

Module LocationFacts.

Import Transformer Spec TextFacts.
Local Open Scope char_scope.

(** ** Case mapping and the character classes *)

Lemma space_of_lower (c : ascii) : is_space (lower_char c) = is_space c.
Proof. destruct c as [[] [] [] [] [] [] [] []]; reflexivity. Qed.

Lemma space_of_upper (c : ascii) : is_space (upper_char c) = is_space c.
Proof. destruct c as [[] [] [] [] [] [] [] []]; reflexivity. Qed.

Lemma lower_of_upper (c : ascii) : lower_char (upper_char c) = lower_char c.
Proof. destruct c as [[] [] [] [] [] [] [] []]; reflexivity. Qed.

Lemma lower_title_case (prev : bool) (s : text) :
  lower (title_case_from prev s) = lower s.
Proof.
  revert prev; induction s as [|c s IH]; intros prev; [reflexivity|].
  cbn [title_case_from lower map]. fold (lower (title_case_from (is_alpha c) s)).
  fold (lower s). rewrite IH. f_equal.
  destruct prev; [apply lower_char_idem | apply lower_of_upper].
Qed.

(** ** Whitespace at the ends *)

Definition starts_solid (x : text) : Prop :=
  exists c r, x = c :: r /\ is_space c = false.

Definition ends_solid (x : text) : Prop :=
  exists r c, x = r ++ [c] /\ is_space c = false.

Lemma lstrip_app_solid (pre x : text) :
  starts_solid x -> lstrip (pre ++ x) = lstrip pre ++ x.
Proof.
  intros [c [r [-> Hc]]]. induction pre as [|d pre IH]; simpl.
  - rewrite Hc. reflexivity.
  - destruct (is_space d); [exact IH | reflexivity].
Qed.

Lemma rstrip_app_solid (y post : text) :
  ends_solid y -> rstrip (y ++ post) = y ++ rstrip post.
Proof.
  intros [r [c [-> Hc]]]. unfold rstrip.
  rewrite rev_app_distr, lstrip_app_solid.
  - rewrite rev_app_distr, rev_involutive. reflexivity.
  - exists c, (rev r). split; [|exact Hc].
    rewrite rev_app_distr. reflexivity.
Qed.

(** [strip] leaves alone a piece that has no whitespace at its ends. *)
Lemma strip_app_solid (pre w post : text) :
  starts_solid w -> ends_solid w ->
  strip (pre ++ w ++ post) = lstrip pre ++ w ++ rstrip post.
Proof.
  intros Hs [r [c [E Hc]]]. unfold strip.
  rewrite (lstrip_app_solid pre (w ++ post)).
  - rewrite app_assoc, rstrip_app_solid, <- app_assoc; [reflexivity|].
    exists (lstrip pre ++ r), c. split; [|exact Hc].
    rewrite E, app_assoc. reflexivity.
  - destruct Hs as [d [r' [-> Hd]]]. exists d, (r' ++ post).
    split; [reflexivity | exact Hd].
Qed.

Lemma strip_of_trimmed (q : text) : trimmed q -> strip q = q.
Proof.
  intros [Hfirst Hlast].
  destruct q as [|c q]; [reflexivity|].
  assert (Hs : starts_solid (c :: q)).
  { exists c, q. split; [reflexivity | exact (Hfirst c q eq_refl)]. }
  assert (He : ends_solid (c :: q)).
  { destruct (exists_last (l:=c :: q)) as [r [d E]]; [discriminate|].
    exists r, d. split; [exact E | exact (Hlast d r E)]. }
  pose proof (strip_app_solid [] (c :: q) [] Hs He) as H.
  change (rstrip []) with (@nil ascii) in H. change (lstrip []) with (@nil ascii) in H.
  rewrite !app_nil_r in H. exact H.
Qed.

Lemma trimmed_map (f : ascii -> ascii) (g : text -> text) (q : text) :
  (forall c, is_space (f c) = is_space c) ->
  (forall c r, exists r', g (c :: r) = f c :: r') ->
  (forall r c, exists r', g (r ++ [c]) = r' ++ [f c]) ->
  g [] = [] ->
  trimmed q -> trimmed (g q).
Proof.
  intros Hf Hhead Hlast Hnil [Hq1 Hq2]. split.
  - intros c t' E. destruct q as [|d q]; [rewrite Hnil in E; discriminate|].
    destruct (Hhead d q) as [r' Hr]. rewrite Hr in E. injection E as <- _.
    rewrite Hf. exact (Hq1 d q eq_refl).
  - intros c t' E.
    destruct q as [|d q]; [rewrite Hnil in E; destruct t'; discriminate|].
    destruct (exists_last (l:=d :: q)) as [r [e Eq]]; [discriminate|].
    rewrite Eq in E. destruct (Hlast r e) as [r' Hr]. rewrite Hr in E.
    apply app_inj_tail in E as [_ <-]. rewrite Hf. exact (Hq2 e r Eq).
Qed.

Lemma lower_trimmed (q : text) : trimmed q -> trimmed (lower q).
Proof.
  apply (trimmed_map lower_char lower).
  - exact space_of_lower.
  - intros c r. exists (lower r). reflexivity.
  - intros r c. exists (lower r). apply lower_app.
  - reflexivity.
Qed.

(** ** Runs of whitespace *)

(** Whether a run is open once [a] has gone by. *)
Definition run_state (cls : ascii -> bool) (f : bool) (a : text) : bool :=
  match last a with
  | Some c => cls c
  | None => f
  end.

Lemma run_state_cons (cls : ascii -> bool) (f : bool) (c : ascii) (a : text) :
  run_state cls f (c :: a) = run_state cls (cls c) a.
Proof.
  destruct a as [|d a]; [reflexivity|]. unfold run_state.
  rewrite last_cons_cons. destruct (last (d :: a)) eqn:E; [reflexivity|].
  apply last_None in E. discriminate.
Qed.

Lemma sub_runs_app (cls : ascii -> bool) (rep : ascii) (f : bool)
  (a b : text) :
  sub_runs cls rep f (a ++ b)
  = sub_runs cls rep f a ++ sub_runs cls rep (run_state cls f a) b.
Proof.
  revert f; induction a as [|c a IH]; intros f; [reflexivity|].
  rewrite run_state_cons. cbn [app sub_runs].
  destruct (cls c) eqn:Hc; [destruct f|]; rewrite IH; reflexivity.
Qed.

Lemma sub_runs_idem (cls : ascii -> bool) (rep : ascii) (x : text) :
  cls rep = true ->
  sub_runs cls rep false (sub_runs cls rep false x) = sub_runs cls rep false x
  /\
  sub_runs cls rep true (sub_runs cls rep true x) = sub_runs cls rep true x.
Proof.
  intros Hrep. induction x as [|c x [IH1 IH2]]; [split; reflexivity|].
  cbn [sub_runs]. destruct (cls c) eqn:Hc.
  - split; [|exact IH2]. cbn [sub_runs]. rewrite Hrep, IH2. reflexivity.
  - split; cbn [sub_runs]; rewrite Hc, IH1; reflexivity.
Qed.

Lemma sub_runs_Forall (P : ascii -> Prop) (cls : ascii -> bool)
  (rep : ascii) (f : bool) (x : text) :
  P rep -> Forall P x -> Forall P (sub_runs cls rep f x).
Proof.
  intros Hrep H. revert f; induction H as [|c x Hc _ IH]; intros f;
    [constructor|].
  cbn [sub_runs]. destruct (cls c); [destruct f|];
    repeat constructor; auto.
Qed.

Lemma sub_runs_trimmed (y : text) :
  trimmed y -> trimmed (sub_runs is_space " " false y).
Proof.
  intros [H1 H2]. destruct y as [|c y].
  - split; intros a b E; destruct b; discriminate.
  - pose proof (H1 c y eq_refl) as Hc. split.
    + intros a b E. cbn [sub_runs] in E. rewrite Hc in E.
      injection E as <- _. exact Hc.
    + intros a b E.
      destruct (exists_last (l:=c :: y)) as [r [e Er]]; [discriminate|].
      pose proof (H2 e r Er) as He.
      rewrite Er, sub_runs_app in E. cbn [sub_runs] in E. rewrite He in E.
      apply app_inj_tail in E as [_ <-]. exact He.
Qed.

Lemma lower_fixed (z : text) :
  Forall (fun c => lower_char c = c) z -> lower z = z.
Proof.
  induction 1 as [|c z Hc _ IH]; [reflexivity|].
  cbn [lower map]. fold (lower z). rewrite Hc, IH. reflexivity.
Qed.

Lemma lower_Forall (y : text) : Forall (fun c => lower_char c = c) (lower y).
Proof.
  induction y as [|c y IH]; constructor; [apply lower_char_idem | exact IH].
Qed.

(** ** Title case *)

Lemma title_case_last (f : bool) (r : text) (c : ascii) :
  exists c', title_case_from f (r ++ [c]) = title_case_from f r ++ [c'] /\
             is_space c' = is_space c.
Proof.
  revert f; induction r as [|d r IH]; intros f.
  - exists (if f then lower_char c else upper_char c). split; [reflexivity|].
    destruct f; [apply space_of_lower | apply space_of_upper].
  - destruct (IH (is_alpha d)) as [c' [E Hc']]. exists c'.
    split; [|exact Hc']. cbn [app title_case_from]. rewrite E. reflexivity.
Qed.

Lemma title_case_trimmed (q : text) : trimmed q -> trimmed (title_case q).
Proof.
  intros [H1 H2]. unfold title_case. split.
  - intros c t' E. destruct q as [|d q]; [discriminate|].
    cbn [title_case_from] in E. injection E as <- _.
    rewrite space_of_upper. exact (H1 d q eq_refl).
  - intros c t' E. destruct q as [|d q]; [destruct t'; discriminate|].
    destruct (exists_last (l:=d :: q)) as [r [e Er]]; [discriminate|].
    rewrite Er in E. destruct (title_case_last false r e) as [c' [E' Hc']].
    rewrite E' in E. apply app_inj_tail in E as [_ <-].
    rewrite Hc'. exact (H2 e r Er).
Qed.

(** ** The location in normal form *)

(** The text the tokens are looked for in. *)
Definition location_key (t : text) : text :=
  sub_runs is_space " " false (lower (strip t)).

Lemma standardize_location_text (c : ascii) (t : text) :
  standardize_location (VStr (c :: t)) =
  if existsb (fun tok => contains tok (location_key (c :: t))) REMOTE_TOKENS
  then Ok (str "Remote")
  else Ok (title_case (location_key (c :: t))).
Proof. reflexivity. Qed.

Lemma location_key_normal (t : text) :
  trimmed (location_key t) /\
  lower (location_key t) = location_key t /\
  sub_runs is_space " " false (location_key t) = location_key t.
Proof.
  unfold location_key. split; [|split].
  - apply sub_runs_trimmed, lower_trimmed, strip_trimmed.
  - apply lower_fixed, sub_runs_Forall; [reflexivity | apply lower_Forall].
  - apply (sub_runs_idem is_space " "). reflexivity.
Qed.

Lemma location_key_title (l : text) :
  trimmed l -> lower l = l -> sub_runs is_space " " false l = l ->
  location_key (title_case l) = l.
Proof.
  intros T L R. unfold location_key.
  rewrite (strip_of_trimmed _ (title_case_trimmed l T)).
  unfold title_case. rewrite lower_title_case, L. exact R.
Qed.

Lemma title_case_nil (l : text) : title_case l = [] -> l = [].
Proof. destruct l; [reflexivity | discriminate]. Qed.

Lemma standardize_location_fixed (v : value) (u : text) :
  standardize_location v = Ok u ->
  standardize_location (VStr u) = Ok u /\ trimmed u.
Proof.
  assert (Nil : standardize_location (VStr []) = Ok [] /\ trimmed [])
    by (split; [reflexivity | split; intros a b E; destruct b; discriminate]).
  assert (Remote : standardize_location (VStr (str "Remote"))
                   = Ok (str "Remote") /\ trimmed (str "Remote")).
  { split; [vm_compute; reflexivity|]. split.
    - intros a b [= <- _]. reflexivity.
    - intros a b E. change (str "Remote") with (str "Remot" ++ ["e"]) in E.
      apply app_inj_tail in E as [_ <-]. reflexivity. }
  destruct v as [| | z | [|c t]]; try (intros [= <-]; exact Nil);
    try discriminate.
  - destruct z; try discriminate; intros [= <-]; exact Nil.
  - rewrite standardize_location_text.
    destruct (location_key_normal (c :: t)) as [T [L R]].
    set (l := location_key (c :: t)) in *.
    destruct (existsb _ REMOTE_TOKENS) eqn:Hrem; intros [= <-];
      [exact Remote|].
    split; [|exact (title_case_trimmed l T)].
    destruct (title_case l) as [|d u] eqn:Hu.
    + reflexivity.
    + rewrite standardize_location_text, <- Hu, (location_key_title l T L R).
      fold l in Hrem. rewrite Hrem. reflexivity.
Qed.

(** The location that [standardize_location] returns for an ASCII text,
    or for a value that is no text, is returned as it is when it is
    given back, and has no whitespace at its ends. *)
Lemma standardize_location_idempotent (v : value) (u : text) :
  (forall t, v = VStr t -> ascii_text t) ->
  standardize_location v = Ok u ->
  standardize_location (VStr u) = Ok u /\ trimmed u.
Proof. intros _. exact (standardize_location_fixed v u). Qed.

Lemma standardize_location_idempotent_witness :
  standardize_location (VStr (str "New York, Usa")) = Ok (str "New York, Usa")
  /\ trimmed (str "New York, Usa").
Proof.
  apply (standardize_location_idempotent (VStr (str "  new   YORK, usa "))).
  - intros t [= <-]. apply ascii_textb_spec. reflexivity.
  - vm_compute. reflexivity.
Defined.

(** ** The remote tokens *)

(** A token that the collapsing of whitespace leaves as it is, wherever
    it stands. *)
Definition kept (tok : text) : Prop :=
  forall f b,
    sub_runs is_space " " f (tok ++ b)
    = tok ++ sub_runs is_space " " false b.

Lemma ends_solid_last (x : text) :
  x <> [] -> is_space (List.last x " ") = false -> ends_solid x.
Proof.
  intros Hx Hl. exists (removelast x), (List.last x " ").
  split; [apply app_removelast_last, Hx | exact Hl].
Qed.

Lemma remote_token_shape (tok : text) :
  In tok REMOTE_TOKENS ->
  kept tok /\ starts_solid tok /\ ends_solid tok /\ lower tok = tok.
Proof.
  unfold REMOTE_TOKENS. cbn [map In].
  intros [<- | [<- | [<- | [<- | []]]]];
    (split; [intros f b; reflexivity|]);
    (split; [eexists _, _; split; reflexivity|]);
    (split; [apply ends_solid_last; [discriminate | reflexivity]
            | reflexivity]).
Qed.

Lemma starts_solid_lower (w : text) : starts_solid (lower w) -> starts_solid w.
Proof.
  intros [c [r [E Hc]]]. destruct w as [|d w]; [discriminate|].
  injection E as <- _. exists d, w. split; [reflexivity|].
  rewrite <- space_of_lower. exact Hc.
Qed.

Lemma ends_solid_lower (w : text) : ends_solid (lower w) -> ends_solid w.
Proof.
  intros [r [c [E Hc]]].
  destruct w as [|d w]; [destruct r; discriminate|].
  destruct (exists_last (l:=d :: w)) as [r' [e Er]]; [discriminate|].
  rewrite Er, lower_app in E. apply app_inj_tail in E as [_ E].
  exists r', e. split; [exact Er|].
  rewrite <- space_of_lower. cbn in E. rewrite E. exact Hc.
Qed.

(** A location in which one of the tokens "remote", "anywhere",
    "worldwide", "work from home" occurs, in any letter case, is
    "Remote". *)
Lemma standardize_location_remote (t tok : text) :
  In tok REMOTE_TOKENS -> occurs_ci tok t ->
  standardize_location (VStr t) = Ok (str "Remote").
Proof.
  intros Hin [pre [w [post [-> Hw]]]].
  destruct (remote_token_shape tok Hin) as [Hkept [Hs [He Hl]]].
  rewrite Hl in Hw.
  assert (Hsw : starts_solid w) by (apply starts_solid_lower; rewrite Hw; exact Hs).
  assert (Hew : ends_solid w) by (apply ends_solid_lower; rewrite Hw; exact He).
  assert (Hkey : contains tok (location_key (pre ++ w ++ post)) = true).
  { unfold location_key. rewrite (strip_app_solid pre w post Hsw Hew).
    rewrite !lower_app, Hw, sub_runs_app, Hkept.
    apply contains_spec. eexists _, _. reflexivity. }
  destruct (pre ++ w ++ post) as [|c t] eqn:E.
  - destruct Hsw as [d [r [-> _]]]. destruct pre; discriminate.
  - rewrite standardize_location_text.
    replace (existsb _ REMOTE_TOKENS) with true; [reflexivity|].
    symmetry. apply existsb_exists. exists tok. split; assumption.
Qed.

Lemma standardize_location_remote_witness :
  standardize_location (VStr (str "USA / Work  From Home"))
  = Ok (str "Remote")
  /\ standardize_location (VStr (str "Anywhere in the World"))
  = Ok (str "Remote").
Proof.
  split; [vm_compute; reflexivity|].
  apply (standardize_location_remote _ (str "anywhere")).
  - right. left. reflexivity.
  - exists [], (str "Anywhere"), (str " in the World"). split; reflexivity.
Defined.

End LocationFacts.

(* ================================================================== *)
(** * Whole-word matching of skills *)
(* ================================================================== *)

Module SkillMatchFacts.

Import Transformer Spec TextFacts SkillFacts.

(** [w] stands in [s] as a word of its own: no word character before it
    and none after it. *)
Definition whole_word (w s : text) : Prop :=
  exists pre post,
    s = pre ++ w ++ post /\
    (forall c, last pre = Some c -> is_word c = false) /\
    head_is_word post = false.

(** [w] begins and ends with a word character. *)
Definition wordy (w : text) : Prop :=
  (exists c r, w = c :: r /\ is_word c = true) /\
  (exists r c, w = r ++ [c] /\ is_word c = true).

Lemma match_word_here_spec (w : text) (prev : bool) (s : text) :
  wordy w ->
  match_word_here w prev s = true <->
  prev = false /\ exists post, s = w ++ post /\ head_is_word post = false.
Proof.
  intros [[c [r Hc]] [r' [c' Hc']]]. destruct Hc as [Ew Hc].
  destruct Hc' as [Ew' Hc'].
  assert (Hlast : last w = Some c') by (rewrite Ew'; apply last_snoc).
  unfold match_word_here. rewrite Hlast, Hc'.
  rewrite !andb_true_iff, starts_with_spec. split.
  - intros [[H1 [post ->]] H2]. rewrite drop_app_length in H2.
    rewrite Ew in H1. cbn [app head_is_word] in H1. rewrite Hc in H1.
    split; [destruct prev; [discriminate H1 | reflexivity]|].
    exists post. split; [rewrite Ew; reflexivity|].
    destruct (head_is_word post); [discriminate H2 | reflexivity].
  - intros [-> [post [-> Hp]]]. rewrite drop_app_length, Hp.
    split; [split; [|eauto] | reflexivity].
    rewrite Ew. cbn [app head_is_word]. rewrite Hc. reflexivity.
Qed.

Lemma wordy_nonempty (w : text) : wordy w -> w <> [].
Proof. intros [[c [r [-> _]]] _]. discriminate. Qed.

Lemma search_word_from_spec (w : text) (prev : bool) (s : text) :
  wordy w ->
  search_word_from w prev s = true <->
  exists pre post,
    s = pre ++ w ++ post /\
    match last pre with Some c => is_word c | None => prev end = false /\
    head_is_word post = false.
Proof.
  intros Hw. revert prev; induction s as [|c s IH]; intros prev;
    cbn [search_word_from]; rewrite orb_true_iff, match_word_here_spec by exact Hw.
  - split.
    + intros [[-> [post [E Hp]]] | C]; [|discriminate C].
      exists [], post. auto.
    + intros [pre [post [E _]]]. exfalso. symmetry in E.
      apply app_eq_nil in E as [_ E]. apply app_eq_nil in E as [E _].
      exact (wordy_nonempty w Hw E).
  - rewrite IH. split.
    + intros [[-> [post [E Hp]]] | [pre [post [-> [H1 H2]]]]].
      * exists [], post. auto.
      * exists (c :: pre), post. split; [reflexivity|].
        split; [|exact H2]. rewrite last_cons.
        destruct (last pre); exact H1.
    + intros [[|d pre] [post [E [H1 H2]]]].
      * left. split; [exact H1|]. exists post. auto.
      * right. injection E as <- ->. exists pre, post.
        split; [reflexivity|]. split; [|exact H2].
        rewrite last_cons in H1. destruct (last pre); exact H1.
Qed.

(** The search of the source finds the words that stand on their own. *)
Lemma search_word_spec (w s : text) :
  wordy w -> search_word w s = true <-> whole_word w s.
Proof.
  intros Hw. unfold search_word, whole_word.
  rewrite (search_word_from_spec w false s Hw).
  split; intros [pre [post [E [H1 H2]]]]; exists pre, post;
    (split; [exact E|]); (split; [|exact H2]).
  - intros c Hc. rewrite Hc in H1. exact H1.
  - destruct (last pre) as [c|]; [exact (H1 c eq_refl) | reflexivity].
Qed.

(** ** The loop, with description and tags that are texts *)

Definition matched (tl gl x : text) : bool :=
  search_word x tl || search_word x gl.

Lemma step_text (tl g : text) (set : gset text) (skill : text) :
  extract_skills_step tl (VStr g) set skill
  = Ok (if matched tl (lower g) (lower skill)
        then {[ lower skill ]} ∪ set else set).
Proof.
  unfold extract_skills_step, matched. cbn [py_lower bind].
  destruct (search_word (lower skill) tl); [reflexivity|].
  destruct (search_word (lower skill) (lower g)); reflexivity.
Qed.

Lemma loop_members (tl g : text) (cands : list text) (set set' : gset text) :
  foldM (extract_skills_step tl (VStr g)) cands set = Ok set' ->
  forall x,
    x ∈ set' <->
    x ∈ set \/
    exists skill,
      In skill cands /\ x = lower skill /\ matched tl (lower g) x = true.
Proof.
  revert set; induction cands as [|skill cands IH]; intros set;
    cbn [foldM].
  - intros [= <-] x. split; [auto | intros [H | [? [[] _]]]; exact H].
  - rewrite step_text. cbn [bind]. intros H x. rewrite (IH _ H x).
    destruct (matched tl (lower g) (lower skill)) eqn:M.
    + rewrite elem_of_union, elem_of_singleton. split.
      * intros [[-> | Hx] | [sk [Hin Hsk]]].
        -- right. exists skill. split; [left; reflexivity | auto].
        -- left. exact Hx.
        -- right. exists sk. split; [right; exact Hin | exact Hsk].
      * intros [Hx | [sk [[<- | Hin] [-> Hm]]]].
        -- left. right. exact Hx.
        -- left. left. reflexivity.
        -- right. exists sk. auto.
    + split.
      * intros [Hx | [sk [Hin Hsk]]]; [left; exact Hx|].
        right. exists sk. split; [right; exact Hin | exact Hsk].
      * intros [Hx | [sk [[<- | Hin] [-> Hm]]]].
        -- left. exact Hx.
        -- congruence.
        -- right. exists sk. auto.
Qed.

Lemma por_self (t : text) : por (VStr t) (VStr []) = VStr t.
Proof. destruct t; reflexivity. Qed.

(** What [extract_skills] returns: the lower-cased names of the
    vocabulary that the search finds in the description or the tags. *)
Lemma extract_skills_members (txt tags : text)
  (extra : option (list text)) (l : list text) :
  extract_skills (VStr txt) (VStr tags) extra = Ok l ->
  forall x,
    In x l <->
    exists skill,
      In skill (COMMON_SKILLS ++ default [] extra) /\ x = lower skill /\
      matched (lower txt) (lower tags) x = true.
Proof.
  unfold extract_skills. rewrite !por_self. cbn [py_lower bind].
  destruct (foldM _ _ ∅) as [set|e] eqn:Hloop; [|discriminate].
  cbn [bind]. intros [= <-] x.
  rewrite sorted_In, (loop_members _ _ _ _ _ Hloop x).
  split; [intros [H | H]; [set_solver | exact H] | auto].
Qed.

Lemma word_of_lower (c : ascii) : is_word (lower_char c) = is_word c.
Proof. destruct c as [[] [] [] [] [] [] [] []]; reflexivity. Qed.

Lemma wordy_lower (w : text) : wordy w -> wordy (lower w).
Proof.
  intros [[c [r [-> Hc]]] [r' [c' [E Hc']]]]. split.
  - exists (lower_char c), (lower r). split; [reflexivity|].
    rewrite word_of_lower. exact Hc.
  - exists (lower r'), (lower_char c'). split; [rewrite E; apply lower_app|].
    rewrite word_of_lower. exact Hc'.
Qed.

(** For an ASCII description, ASCII tags and an ASCII name of the
    vocabulary that begins and ends with a word character, the
    lower-cased name is among the skills exactly when it stands as a
    word of its own in the lower-cased description or in the lower-cased
    tags. *)
Lemma extract_skills_whole_word (txt tags : text)
  (extra : option (list text)) (l : list text) (skill : text) :
  ascii_text txt -> ascii_text tags -> ascii_text skill ->
  extract_skills (VStr txt) (VStr tags) extra = Ok l ->
  In skill (COMMON_SKILLS ++ default [] extra) ->
  wordy skill ->
  In (lower skill) l <->
  whole_word (lower skill) (lower txt) \/
  whole_word (lower skill) (lower tags).
Proof.
  intros _ _ _ Hl Hin Hw. apply wordy_lower in Hw.
  rewrite (extract_skills_members txt tags extra l Hl).
  rewrite <- !(search_word_spec _ _ Hw), <- orb_true_iff.
  fold (matched (lower txt) (lower tags) (lower skill)). split.
  - intros [sk [_ [_ Hm]]]. exact Hm.
  - intros Hm. exists skill. auto.
Qed.

Definition wordyb (w : text) : bool :=
  match w with
  | c :: _ => is_word c && is_word (List.last w c)
  | [] => false
  end.

Lemma wordyb_wordy (w : text) : wordyb w = true -> wordy w.
Proof.
  destruct w as [|c r]; [discriminate|]. cbn [wordyb].
  intros [H1 H2]%andb_true_iff. split.
  - exists c, r. auto.
  - exists (removelast (c :: r)), (List.last (c :: r) c).
    split; [apply app_removelast_last; discriminate | exact H2].
Qed.

Lemma COMMON_SKILLS_wordy : Forall wordy COMMON_SKILLS.
Proof.
  apply List.Forall_forall. intros w Hw. apply wordyb_wordy.
  assert (H : forallb wordyb COMMON_SKILLS = true) by reflexivity.
  rewrite forallb_forall in H. exact (H w Hw).
Qed.

Lemma extract_skills_whole_word_witness :
  In (lower (str "java")) [str "javascript"; str "sql"] <->
  whole_word (lower (str "java")) (lower (str "JavaScript and SQL")) \/
  whole_word (lower (str "java")) (lower (str "node")).
Proof.
  apply (extract_skills_whole_word _ _ None);
    try (apply ascii_textb_spec; reflexivity).
  - vm_compute. reflexivity.
  - vm_compute. repeat (first [left; reflexivity | right]).
  - apply wordyb_wordy. reflexivity.
Defined.

End SkillMatchFacts.

(* ================================================================== *)
(** * More on the salary parser *)
(* ================================================================== *)

Module SalaryMoreFacts.

Import Transformer Spec TextFacts SalaryFacts.
Local Open Scope char_scope.

(** ** Blank input *)

Lemma lstrip_whitespace (ws : text) : whitespace ws -> lstrip ws = [].
Proof.
  induction 1 as [|c ws Hc _ IH]; [reflexivity|]. simpl. rewrite Hc. exact IH.
Qed.

Lemma strip_whitespace (ws : text) : whitespace ws -> strip ws = [].
Proof. intros H. unfold strip. rewrite (lstrip_whitespace ws H). reflexivity. Qed.

(** A salary that is no text, or a text of whitespace only, gives no
    minimum, no maximum and no currency. *)
Lemma parse_salary_blank (v : value) :
  (forall t, v = VStr t -> whitespace t) -> parse_salary v = Ok no_salary.
Proof.
  intros H. destruct v as [| | z | t]; try reflexivity.
  unfold parse_salary. rewrite (strip_whitespace t (H t eq_refl)).
  cbn [truthy negb]. rewrite orb_true_r. reflexivity.
Qed.

Lemma parse_salary_blank_witness :
  parse_salary (VStr (str "   ")) = Ok no_salary.
Proof.
  apply parse_salary_blank. intros t [= <-]. repeat constructor.
Defined.

(** ** The dollar *)

(** A piece that is a run of lower-case letters up to case has no comma
    and no whitespace in it. *)
Lemma letters_piece (w tok : text) :
  lower w = tok -> Forall (fun c => is_lower c = true) tok ->
  remove_char "," w = w /\ Forall (fun c => is_space c = false) w.
Proof.
  intros <- H. induction w as [|c w IH]; [split; [reflexivity | constructor]|].
  cbn [lower map] in H. inversion H as [|? ? Hc Hw]; subst.
  destruct (IH Hw) as [E F].
  destruct (letter_of_lower c _ eq_refl Hc) as [Sc Cc].
  split; [|constructor; assumption].
  unfold remove_char in *. cbn [List.filter].
  destruct (Ascii.eqb_spec c ","); [contradiction|]. cbn [negb].
  rewrite E. reflexivity.
Qed.

Lemma contains_piece_clean (tok pre w post : text) :
  lower w = tok -> remove_char "," w = w ->
  contains tok (lower (remove_char "," (pre ++ w ++ post))) = true.
Proof.
  intros Hw Hrc. apply contains_spec.
  exists (lower (remove_char "," pre)), (lower (remove_char "," post)).
  rewrite !remove_char_app, !lower_app, Hrc, Hw. reflexivity.
Qed.

Lemma parse_salary_currency (t : text) (c : ascii) (cur : option text) :
  In c t -> is_space c = false ->
  detect_currency t (lower (remove_char "," t)) = cur ->
  exists sal, parse_salary (VStr t) = Ok sal /\ sal_currency sal = cur.
Proof.
  intros Hin Hc Hcur. unfold parse_salary.
  rewrite (nonspace_nonblank t c Hin Hc), Hcur.
  destruct (candidate_values_total (lower (remove_char "," t))) as [vs ->].
  cbn [bind]. destruct vs as [|v [|v' vs]]; eexists; split; reflexivity.
Qed.

(** A text with "$" in it, or "usd" in any letter case, is in dollars,
    whatever else it holds: the dollar goes before the Euro. *)
Lemma parse_salary_usd (t : text) :
  contains (str "$") t = true \/ occurs_ci (str "usd") t ->
  exists sal,
    parse_salary (VStr t) = Ok sal /\ sal_currency sal = Some (str "USD").
Proof.
  intros [Hd | [pre [w [post [-> Hw]]]]].
  - apply contains_spec in Hd as Hsplit. destruct Hsplit as [pre [post E]].
    apply (parse_salary_currency t "$").
    + rewrite E. apply in_or_app. right. left. reflexivity.
    + reflexivity.
    + unfold detect_currency. rewrite Hd. reflexivity.
  - change (lower (str "usd")) with (str "usd") in Hw.
    destruct (letters_piece w (str "usd") Hw) as [Hrc Hsp];
      [repeat constructor|].
    destruct w as [|c w]; [discriminate|].
    apply (parse_salary_currency _ c).
    + apply in_or_app. right. left. reflexivity.
    + inversion Hsp; assumption.
    + unfold detect_currency.
      rewrite (contains_piece_clean (str "usd") pre (c :: w) post Hw Hrc).
      rewrite orb_true_r. reflexivity.
Qed.

Lemma parse_salary_usd_witness :
  exists sal,
    parse_salary (VStr (str "$50k or 45k EUR")) = Ok sal /\
    sal_currency sal = Some (str "USD").
Proof. apply parse_salary_usd. left. reflexivity. Defined.

(** ** Thousands separators *)

Lemma remove_char_idem (c : ascii) (t : text) :
  remove_char c (remove_char c t) = remove_char c t.
Proof.
  unfold remove_char. induction t as [|d t IH]; [reflexivity|].
  cbn [List.filter]. destruct (negb (Ascii.eqb d c)) eqn:E; [|exact IH].
  cbn [List.filter]. rewrite E, IH. reflexivity.
Qed.

Lemma parse_salary_no_candidate (t : text) (sal : salary) :
  candidate_values (lower (remove_char "," t)) = Ok [] ->
  parse_salary (VStr t) = Ok sal ->
  sal_min sal = None /\ sal_max sal = None.
Proof.
  intros Hc. unfold parse_salary. rewrite Hc.
  destruct (negb _ || negb _); intros [= <-]; split; reflexivity.
Qed.

(** The commas of a salary text do not count: with or without them, the
    minimum and the maximum are the same. *)
Lemma parse_salary_commas (t : text) (sal sal' : salary) :
  parse_salary (VStr t) = Ok sal ->
  parse_salary (VStr (remove_char "," t)) = Ok sal' ->
  sal_min sal = sal_min sal' /\ sal_max sal = sal_max sal'.
Proof.
  intros H H'.
  destruct (candidate_values_total (lower (remove_char "," t))) as [vs Hvs].
  assert (Hvs' : candidate_values
                   (lower (remove_char "," (remove_char "," t))) = Ok vs)
    by (rewrite remove_char_idem; exact Hvs).
  destruct vs as [|v vs].
  - destruct (parse_salary_no_candidate t sal Hvs H) as [-> ->].
    destruct (parse_salary_no_candidate _ sal' Hvs' H') as [-> ->].
    split; reflexivity.
  - rewrite (parse_salary_candidates t v vs Hvs) in H.
    rewrite (parse_salary_candidates _ v vs Hvs') in H'.
    cbv zeta in H, H'.
    destruct vs; injection H as <-; injection H' as <-; split; reflexivity.
Qed.

Lemma parse_salary_commas_witness :
  parse_salary (VStr (str "50,000 - 65,000 eur"))
  = Ok (Salary (Some 50000%Q) (Some 65000%Q) (Some (str "EUR"))) /\
  parse_salary (VStr (str "50000 - 65000 eur"))
  = Ok (Salary (Some 50000%Q) (Some 65000%Q) (Some (str "EUR"))) /\
  Some 50000%Q = Some 50000%Q /\ Some 65000%Q = Some 65000%Q.
Proof.
  split; [vm_compute; reflexivity|]. split; [vm_compute; reflexivity|].
  apply (parse_salary_commas (str "50,000 - 65,000 eur")
           (Salary (Some 50000%Q) (Some 65000%Q) (Some (str "EUR")))
           (Salary (Some 50000%Q) (Some 65000%Q) (Some (str "EUR"))));
    vm_compute; reflexivity.
Defined.

End SalaryMoreFacts.

(* ================================================================== *)
(** * More on the seniority classifier *)
(* ================================================================== *)

Module SeniorityMoreFacts.

Import Transformer Spec TextFacts SeniorityFacts.

(** The buckets. *)
Definition SENIORITY_BUCKETS : list text :=
  [] :: map str ["senior"; "junior"; "intern"; "manager"; "mid"]%string.

Lemma bucket_of_table (kv : text * text) :
  In kv keyword_buckets -> In kv.2 SENIORITY_BUCKETS.
Proof.
  assert (H : Forall (fun kv : text * text => kv.2 ∈ SENIORITY_BUCKETS)
                keyword_buckets).
  { apply (bool_decide_unpack _). vm_compute. exact I. }
  rewrite List.Forall_forall in H. intros Hin.
  apply list_elem_of_In. exact (H kv Hin).
Qed.

Lemma infer_seniority_bucket (v : value) (b : text) :
  infer_seniority v = Ok b -> In b SENIORITY_BUCKETS.
Proof.
  destruct v as [| | z | [|c t]];
    try (intros [= <-]; left; reflexivity); try discriminate.
  - destruct z; try discriminate; intros [= <-]; left; reflexivity.
  - rewrite infer_seniority_text.
    destruct (find _ keyword_buckets) as [kv|] eqn:Hf; intros [= <-].
    + apply bucket_of_table. exact (proj1 (List.find_some _ _ Hf)).
    + do 5 right. left. reflexivity.
Qed.

(** Whatever the title, the bucket returned is one of the six; and the
    letter case of the title does not count. *)
Lemma infer_seniority_buckets :
  (forall (v : value) (b : text),
      infer_seniority v = Ok b -> In b SENIORITY_BUCKETS) /\
  (forall t t' : text,
      lower t = lower t' ->
      infer_seniority (VStr t) = infer_seniority (VStr t')).
Proof.
  split; [exact infer_seniority_bucket|].
  intros [|c t] [|c' t'] H; try discriminate; [reflexivity|].
  rewrite !infer_seniority_text, H. reflexivity.
Qed.

Lemma infer_seniority_buckets_witness :
  In (str "manager") SENIORITY_BUCKETS /\
  infer_seniority (VStr (str "SENIOR data engineer"))
  = infer_seniority (VStr (str "Senior Data Engineer")).
Proof.
  split.
  - apply (proj1 infer_seniority_buckets (VStr (str "Product Manager"))).
    vm_compute. reflexivity.
  - apply (proj2 infer_seniority_buckets). reflexivity.
Defined.

End SeniorityMoreFacts.

(* ================================================================== *)
(** * The frame that transform_records returns *)
(* ================================================================== *)

Module FrameFacts.

Import Transformer Spec TextFacts SkillFacts CleanFacts DedupFacts
  RecordFacts LocationFacts SeniorityMoreFacts.

Lemma clean_text_normal (v : value) (t : text) :
  clean_text v = Ok t -> trimmed t /\ no_adjacent_newlines t.
Proof.
  assert (Nil : trimmed [] /\ no_adjacent_newlines []).
  { split; [split|]; intros a b H; destruct a, b; discriminate. }
  destruct v as [| | z | [|c u]]; try (intros [= <-]; exact Nil);
    try discriminate.
  - destruct z; try discriminate; intros [= <-]; exact Nil.
  - change (clean_text (VStr (c :: u)))
      with (Ok (strip (sub_runs is_lf LF false (sub_crlf (c :: u))))).
    generalize (sub_crlf (c :: u)). intros y [= <-].
    split; [apply strip_trimmed|].
    destruct (strip_split (sub_runs is_lf LF false y)) as [ws1 [ws2 [E _]]].
    apply (no_adjacent_piece ws1 _ ws2). rewrite <- E, sub_runs_spec.
    apply squeeze_no_adjacent.
Qed.

(** The dict the loop appends for the record [r], field by field. *)
Record row_consistent (extra : option (list text)) (r : gmap string value)
  (x : row) : Prop := {
  rc_raw : row_raw_record x = r;
  rc_id : row_id x = get r "id";
  rc_normalized : row_normalized_title x = lower (row_title x);
  rc_remote : row_remote x = true <-> row_location x = str "Remote";
  rc_title : trimmed (row_title x) /\ no_adjacent_newlines (row_title x);
  rc_company :
    trimmed (row_company_name x) /\ no_adjacent_newlines (row_company_name x);
  rc_description :
    trimmed (row_description x) /\ no_adjacent_newlines (row_description x);
  rc_location :
    standardize_location (VStr (row_location x)) = Ok (row_location x);
  rc_seniority :
    infer_seniority (VStr (row_title x)) = Ok (row_seniority x) /\
    In (row_seniority x) SENIORITY_BUCKETS;
  rc_skills :
    exists l,
      extract_skills (VStr (row_description x)) (row_tags x) extra = Ok l /\
      row_skills x = join (str ", ") l
}.

Lemma transform_record_consistent (dp : text -> option text)
  (extra : option (list text)) (r : gmap string value) (x : row) :
  transform_record dp extra r = Ok x -> row_consistent extra r x.
Proof.
  unfold transform_record.
  destruct (clean_text _) as [desc|e] eqn:Hdesc; [|discriminate].
  cbn [bind].
  destruct (clean_text (por (get r "title") _)) as [ttl|e] eqn:Httl;
    [|discriminate].
  cbn [bind].
  destruct (clean_text (por (por (get r "company_name") _) _))
    as [company|e] eqn:Hcomp; [|discriminate].
  cbn [bind].
  destruct (standardize_location _) as [loc|e] eqn:Hloc; [|discriminate].
  cbn [bind].
  destruct (parse_salary _) as [sal|e]; [|discriminate]. cbn [bind].
  destruct (extract_skills _ _ _) as [skills|e] eqn:Hsk; [|discriminate].
  cbn [bind].
  destruct (infer_seniority _) as [sen|e] eqn:Hsen; [|discriminate].
  cbn [bind]. intros [= <-].
  constructor; cbn [row_raw_record row_id row_normalized_title row_title
                    row_remote row_location row_company_name
                    row_description row_seniority row_tags row_skills].
  - reflexivity.
  - reflexivity.
  - reflexivity.
  - destruct (decide _) as [E | E]; split; intros H;
      first [exact E | reflexivity | discriminate H | destruct (E H)].
  - exact (clean_text_normal _ _ Httl).
  - exact (clean_text_normal _ _ Hcomp).
  - exact (clean_text_normal _ _ Hdesc).
  - exact (proj1 (standardize_location_fixed _ _ Hloc)).
  - split; [exact Hsen|].
    exact (infer_seniority_bucket _ _ Hsen).
  - exists skills. split; [exact Hsk | reflexivity].
Qed.

(** How the fields of a row of the frame hang together. *)
Record row_sound (extra : option (list text)) (x : row) : Prop := {
  rs_remote : row_remote x = true <-> row_location x = str "Remote";
  rs_title : trimmed (row_title x) /\ no_adjacent_newlines (row_title x);
  rs_company :
    trimmed (row_company_name x) /\ no_adjacent_newlines (row_company_name x);
  rs_description :
    trimmed (row_description x) /\ no_adjacent_newlines (row_description x);
  rs_seniority :
    infer_seniority (VStr (row_title x)) = Ok (row_seniority x) /\
    In (row_seniority x) SENIORITY_BUCKETS;
  rs_normalized :
    ascii_text (row_title x) ->
    row_normalized_title x = lower (row_title x);
  rs_skills :
    ascii_text (row_description x) ->
    (forall t, row_tags x = VStr t -> ascii_text t) ->
    List.Forall ascii_text (default [] extra) ->
    exists l,
      extract_skills (VStr (row_description x)) (row_tags x) extra = Ok l /\
      row_skills x = join (str ", ") l
}.

(** Every row of the frame comes from one of the records given, which it
    keeps in [raw_record], and its fields hang together: the title, the
    company name and the description have no whitespace at their ends
    and no two newlines in a row; the row is remote exactly when its
    location is "Remote"; the seniority is the one of the title, one of
    the five buckets or empty; where the title is ASCII, the normalized
    title is the title in lower case; where description, tags and extra
    skill names are ASCII, the skills are those of description and tags,
    joined. *)
Lemma transform_records_consistent (dp : text -> option text)
  (records : list (gmap string value)) (extra : option (list text))
  (df : list row) (x : row) :
  transform_records dp records extra = Ok df -> In x df ->
  In (row_raw_record x) records /\ row_sound extra x.
Proof.
  intros Hdf Hx. apply list_elem_of_In in Hx.
  destruct (transform_records_rows _ _ _ _ _ Hdf Hx) as [r [Hr Hrx]].
  pose proof (transform_record_consistent _ _ _ _ Hrx) as C.
  rewrite (rc_raw _ _ _ C). split; [apply list_elem_of_In, Hr|].
  constructor.
  - exact (rc_remote _ _ _ C).
  - exact (rc_title _ _ _ C).
  - exact (rc_company _ _ _ C).
  - exact (rc_description _ _ _ C).
  - exact (rc_seniority _ _ _ C).
  - intros _. exact (rc_normalized _ _ _ C).
  - intros _ _ _. exact (rc_skills _ _ _ C).
Qed.

Lemma transform_records_consistent_witness :
  List.Forall
    (fun x =>
       In (row_raw_record x) [posting_with_id; posting_analyst] /\
       row_sound None x)
    (rows_of [posting_with_id; posting_analyst]).
Proof.
  apply List.Forall_forall. intros x.
  apply (transform_records_consistent (fun _ => None)
           [posting_with_id; posting_analyst] None).
  vm_compute. reflexivity.
Defined.

(** ** The loop as a whole *)

Lemma mapM_inverse {A B : Type} (f : A -> result B) (g : B -> A)
  (l : list A) (bs : list B) :
  (forall a b, f a = Ok b -> g b = a) ->
  mapM f l = Ok bs -> g <$> bs = l.
Proof.
  intros Hg. revert bs; induction l as [|a l IH]; intros bs; simpl.
  - intros [= <-]. reflexivity.
  - destruct (f a) as [b|e] eqn:Hfa; [|discriminate]. cbn [bind].
    destruct (mapM f l) as [bs'|e]; [|discriminate]. cbn [bind].
    intros [= <-]. rewrite fmap_cons, (Hg a b Hfa), (IH bs' eq_refl).
    reflexivity.
Qed.

Lemma transform_record_raw (dp : text -> option text)
  (extra : option (list text)) (r : gmap string value) (x : row) :
  transform_record dp extra r = Ok x -> row_raw_record x = r.
Proof.
  intros H. exact (rc_raw _ _ _ (transform_record_consistent _ _ _ _ H)).
Qed.

Lemma candidate_rows_raw (dp : text -> option text)
  (extra : option (list text)) (records : list (gmap string value))
  (out : list row) :
  candidate_rows dp extra records = Ok out ->
  row_raw_record <$> out = records.
Proof.
  apply mapM_inverse. intros r x. apply transform_record_raw.
Qed.

Lemma sublist_of_fmap {A B : Type} (f : A -> B) (l k : list A) :
  l `sublist_of` k -> f <$> l `sublist_of` f <$> k.
Proof.
  induction 1; rewrite ?fmap_cons; constructor; assumption.
Qed.

Lemma dedupe_head (y : row) (out : list row) :
  exists rest, dedupe (y :: out) = y :: rest.
Proof.
  rewrite dedupe_key. unfold drop_duplicates. cbn [drop_duplicates_from].
  destruct (decide _) as [H | _]; [inversion H | eauto].
Qed.

(** The frame that is returned is never empty; its rows come in the
    order of the records they were made of, at most one for each record,
    and the row of the first record is always the first of them. *)
Lemma transform_records_shape (dp : text -> option text)
  (records : list (gmap string value)) (extra : option (list text))
  (df : list row) :
  transform_records dp records extra = Ok df ->
  df <> [] /\
  row_raw_record <$> df `sublist_of` records /\
  length df <= length records /\
  head (row_raw_record <$> df) = head records.
Proof.
  unfold transform_records.
  destruct (candidate_rows dp extra records) as [out|e] eqn:Hout;
    [|discriminate].
  cbn [bind]. destruct out as [|y out]; [discriminate|]. intros [= <-].
  pose proof (candidate_rows_raw _ _ _ _ Hout) as Hraw.
  assert (Hsub : row_raw_record <$> dedupe (y :: out) `sublist_of` records).
  { rewrite <- Hraw. apply sublist_of_fmap, dedupe_sublist. }
  destruct (dedupe_head y out) as [rest E].
  split; [rewrite E; discriminate|]. split; [exact Hsub|]. split.
  - apply sublist_length in Hsub. rewrite length_fmap in Hsub. exact Hsub.
  - rewrite E, <- Hraw. reflexivity.
Qed.

Lemma transform_records_shape_witness :
  match transform_records (fun _ => None)
          [posting_with_id; posting_analyst; posting_scientist] None with
  | Ok df =>
      df <> [] /\
      row_raw_record <$> df
        `sublist_of` [posting_with_id; posting_analyst; posting_scientist] /\
      length df <= 3 /\
      head (row_raw_record <$> df) = Some posting_with_id
  | Err _ => False
  end.
Proof.
  destruct (transform_records (fun _ => None)
              [posting_with_id; posting_analyst; posting_scientist] None)
    as [df|e] eqn:E; [|vm_compute in E; discriminate E].
  exact (transform_records_shape _ _ _ _ E).
Defined.

Lemma NoDup_key_of {A B : Type} (f : A -> B) (g : A -> option B)
  (l : list A) :
  (forall x, x ∈ l -> g x = Some (f x)) -> NoDup (f <$> l) ->
  NoDup (g <$> l).
Proof.
  induction l as [|a l IH]; intros Hg Hnd; [constructor|].
  change (NoDup (f a :: (f <$> l))) in Hnd.
  apply NoDup_cons in Hnd as [Ha Hnd].
  change (NoDup (g a :: (g <$> l))). apply NoDup_cons. split.
  - rewrite list_elem_of_fmap. intros [b [E Hb]]. apply Ha.
    apply list_elem_of_fmap. exists b. split; [|exact Hb].
    rewrite (Hg a), (Hg b) in E; [congruence | right; exact Hb | left].
  - apply IH; [|exact Hnd]. intros x Hx. apply Hg. right. exact Hx.
Qed.

(** Records that all have an identifier, no two the same, all stay: the
    frame has one row for each record, in their order. *)
Lemma transform_records_distinct_ids (dp : text -> option text)
  (records : list (gmap string value)) (extra : option (list text))
  (df : list row) :
  transform_records dp records extra = Ok df ->
  List.Forall (fun r => isna (get r "id") = false) records ->
  NoDup ((fun r => get r "id") <$> records) ->
  row_raw_record <$> df = records.
Proof.
  unfold transform_records.
  destruct (candidate_rows dp extra records) as [out|e] eqn:Hout;
    [|discriminate].
  cbn [bind]. destruct out as [|y out]; [discriminate|]. intros [= <-].
  intros Hid Hnd.
  pose proof (candidate_rows_raw _ _ _ _ Hout) as Hraw.
  assert (Hkey : forall x, x ∈ y :: out ->
            id_key x = Some (get (row_raw_record x) "id")).
  { intros x Hx. unfold candidate_rows in Hout.
    destruct (mapM_elem _ _ _ _ Hout Hx) as [r [Hr Hrx]].
    pose proof (transform_record_consistent _ _ _ _ Hrx) as C.
    rewrite (rc_raw _ _ _ C). unfold id_key. rewrite (rc_id _ _ _ C).
    rewrite List.Forall_forall in Hid.
    rewrite (Hid _ (proj1 (list_elem_of_In _ _) Hr)). reflexivity. }
  assert (B : by_id (y :: out) = true).
  { apply by_id_true, any_id_true. exists y. split; [left|].
    pose proof (Hkey y ltac:(left)) as K. unfold id_key in K.
    destruct (isna (row_id y)); [discriminate K | reflexivity]. }
  rewrite (dedupe_by_id _ B). unfold drop_duplicates.
  rewrite dd_fixed; [exact Hraw | intros r _ H; inversion H |].
  apply (NoDup_key_of (fun x => get (row_raw_record x) "id")); [exact Hkey|].
  rewrite <- Hraw, <- list_fmap_compose in Hnd. exact Hnd.
Qed.

Definition posting_second_id : gmap string value :=
  <[ "id" := VInt 2 ]> {[ "title" := VStr (str "Data Engineer") ]}.

Lemma transform_records_distinct_ids_witness :
  match transform_records (fun _ => None)
          [posting_with_id; posting_second_id] None with
  | Ok df => row_raw_record <$> df = [posting_with_id; posting_second_id]
  | Err _ => False
  end.
Proof.
  destruct (transform_records (fun _ => None)
              [posting_with_id; posting_second_id] None)
    as [df|e] eqn:E; [|vm_compute in E; discriminate E].
  apply (transform_records_distinct_ids _ _ _ _ E).
  - repeat constructor.
  - apply (bool_decide_unpack _). vm_compute. exact I.
Defined.

End FrameFacts.

(* ================================================================== *)
(** * The skills file of the command line *)
(* ================================================================== *)

Module CliFacts.

Import Transformer TransformerCli Spec TextFacts SkillFacts RecordFacts
  FrameFacts.

Lemma truthy_text (t : text) : truthy (VStr t) = true <-> t <> [].
Proof. destruct t; simpl; split; congruence. Qed.

Lemma read_extra_skills_In (lines : list text) (s : text) :
  In s (read_extra_skills lines) <->
  s <> [] /\ exists ln, In ln lines /\ s = strip ln.
Proof.
  unfold read_extra_skills. rewrite in_map_iff. split.
  - intros [ln [<- Hln]]. apply filter_In in Hln as [Hin Ht].
    apply truthy_text in Ht. eauto.
  - intros [Hs [ln [Hin ->]]]. exists ln. split; [reflexivity|].
    apply filter_In. split; [exact Hin | apply truthy_text, Hs].
Qed.

(** No name read from the skills file is empty or has whitespace at its
    ends, and reading the names again as lines gives the same names;
    where the lines of the file are ASCII, the names are the lines that
    are not blank, each without the whitespace at its ends. *)
Lemma read_extra_skills_clean (lines : list text) :
  ~ In [] (read_extra_skills lines) /\
  List.Forall trimmed (read_extra_skills lines) /\
  read_extra_skills (read_extra_skills lines) = read_extra_skills lines /\
  (List.Forall ascii_text lines ->
   forall s, In s (read_extra_skills lines) <->
             s <> [] /\ exists ln, In ln lines /\ s = strip ln).
Proof.
  split.
  { intros H. apply read_extra_skills_In in H as [H _]. apply H. reflexivity. }
  cut (List.Forall trimmed (read_extra_skills lines) /\
       read_extra_skills (read_extra_skills lines) = read_extra_skills lines).
  { intros [H1 H2]. split; [exact H1|]. split; [exact H2|].
    intros _. apply read_extra_skills_In. }
  split.
  - apply List.Forall_forall. intros s Hs.
    apply read_extra_skills_In in Hs as [_ [ln [_ ->]]]. apply strip_trimmed.
  - unfold read_extra_skills.
    induction lines as [|ln lines IH]; [reflexivity|].
    cbn [List.filter]. destruct (truthy (VStr (strip ln))) eqn:T; [|exact IH].
    cbn [map List.filter].
    rewrite (LocationFacts.strip_of_trimmed _ (strip_trimmed ln)), T.
    cbn [map]. rewrite (LocationFacts.strip_of_trimmed _ (strip_trimmed ln)).
    f_equal. exact IH.
Qed.

(** What [extract_skills] returns when it returns, whatever the values
    of its arguments. *)
Lemma extract_skills_sound (txt tags : value) (extra : option (list text))
  (l : list text) :
  extract_skills txt tags extra = Ok l ->
  StronglySorted text_le l /\ List.Forall lowercased l /\ NoDup l /\
  (forall x, In x l ->
     exists skill,
       In skill (COMMON_SKILLS ++ default [] extra) /\ x = lower skill).
Proof.
  unfold extract_skills.
  destruct (py_lower _) as [tl|e]; [|discriminate]. cbn [bind].
  destruct (foldM _ _ ∅) as [set|e] eqn:Hloop; [|discriminate].
  cbn [bind]. intros [= <-].
  assert (Hfrom : forall x, In x (sorted set) ->
            exists skill,
              In skill (COMMON_SKILLS ++ default [] extra) /\
              x = lower skill).
  { intros x Hx. apply sorted_In in Hx.
    destruct (loop_elements _ _ _ _ _ Hloop x Hx) as [H | H]; [|exact H].
    apply elem_of_empty in H. destruct H. }
  split; [apply sorted_sorted|]. split; [|split; [apply sorted_NoDup|exact Hfrom]].
  apply List.Forall_forall. intros x Hx.
  destruct (Hfrom x Hx) as [skill [_ ->]]. apply lower_idem.
Qed.


Definition posting_rust : gmap string value :=
  <[ "description" := VStr (str "We use Python, SQL and Rust.") ]>
    {[ "title" := VStr (str "Data Engineer") ]}.


End CliFacts.

(* ================================================================== *)
(** * The skills column, as the dashboard reads it *)
(* ================================================================== *)

Module DashboardFacts.

Import Transformer Dashboard Spec TextFacts SkillFacts RecordFacts
  LocationFacts FrameFacts CliFacts.

Local Open Scope char_scope.

Definition comma_free (s : text) : Prop := ~ In "," s.

(** A name that can stand in the skills column. *)
Definition skill_name (s : text) : Prop :=
  s <> [] /\ trimmed s /\ comma_free s.

Lemma split_on_whole (s : text) : comma_free s -> split_on "," s = [s].
Proof.
  induction s as [|c s IH]; intros H; [reflexivity|].
  cbn [split_on]. destruct (Ascii.eqb_spec c ",") as [-> | _].
  - exfalso. apply H. left. reflexivity.
  - rewrite IH; [reflexivity|]. intros C. apply H. right. exact C.
Qed.

Lemma split_on_app (s t : text) :
  comma_free s -> split_on "," (s ++ "," :: t) = s :: split_on "," t.
Proof.
  induction s as [|c s IH]; intros H; [reflexivity|].
  cbn [app split_on]. destruct (Ascii.eqb_spec c ",") as [-> | _].
  - exfalso. apply H. left. reflexivity.
  - rewrite IH; [reflexivity|]. intros C. apply H. right. exact C.
Qed.

Lemma split_on_pieces (s : text) : List.Forall comma_free (split_on "," s).
Proof.
  induction s as [|c s IH]; cbn [split_on].
  - constructor; [intros []|constructor].
  - destruct (Ascii.eqb_spec c ",") as [-> | Hc].
    + constructor; [intros []|exact IH].
    + destruct (split_on "," s) as [|p ps].
      * constructor; [|constructor]. intros [E | []]. congruence.
      * apply List.Forall_cons_iff in IH as [Hp Hps]. constructor; [|exact Hps].
        intros [E | C]; [congruence | exact (Hp C)].
Qed.

(** The pieces of a joined list of names: each name after the first has
    the space of the separator before it. *)
Lemma split_on_join (x : text) (l : list text) :
  List.Forall comma_free (x :: l) ->
  split_on "," (join (str ", ") (x :: l)) = x :: map (cons " ") l.
Proof.
  revert x; induction l as [|y l IH]; intros x H.
  - apply split_on_whole. exact (List.Forall_inv H).
  - change (join (str ", ") (x :: y :: l))
      with (x ++ "," :: " " :: join (str ", ") (y :: l)).
    rewrite split_on_app by exact (List.Forall_inv H).
    cbn [split_on Ascii.eqb Bool.eqb]. cbn [map].
    rewrite (IH y (List.Forall_inv_tail H)). reflexivity.
Qed.

Lemma skill_name_solid (s : text) :
  s <> [] -> trimmed s -> starts_solid s /\ ends_solid s.
Proof.
  intros Hs [Hfirst Hlast]. destruct s as [|c s]; [congruence|]. split.
  - exists c, s. split; [reflexivity | exact (Hfirst c s eq_refl)].
  - destruct (exists_last (l:=c :: s)) as [r [d E]]; [discriminate|].
    exists r, d. split; [exact E | exact (Hlast d r E)].
Qed.

Lemma strip_spaced (s : text) :
  s <> [] -> trimmed s -> strip (" " :: s) = s.
Proof.
  intros Hs Ht. destruct (skill_name_solid s Hs Ht) as [H1 H2].
  pose proof (strip_app_solid [" "] s [] H1 H2) as H.
  change (rstrip []) with (@nil ascii) in H.
  change (lstrip [" "]) with (@nil ascii) in H.
  rewrite !app_nil_r in H. exact H.
Qed.

Lemma kept_pieces (ps ns : list text) :
  Forall2 (fun p n => strip p = n /\ n <> []) ps ns ->
  map strip (List.filter (fun i => truthy (VStr (strip i))) ps) = ns.
Proof.
  induction 1 as [|p n ps ns [E Hn] _ IH]; [reflexivity|].
  cbn [List.filter]. rewrite E.
  rewrite (proj2 (truthy_text n) Hn). cbn [map]. rewrite E, IH. reflexivity.
Qed.

Lemma skills_list_of_join (l : list text) :
  List.Forall skill_name l -> skills_list (Some (join (str ", ") l)) = l.
Proof.
  intros H. destruct l as [|x l]; [reflexivity|].
  unfold skills_list.
  change (default [] (Some (join (str ", ") (x :: l))))
    with (join (str ", ") (x :: l)).
  rewrite split_on_join.
  - apply kept_pieces. apply List.Forall_cons_iff in H as [[Hx [Tx _]] Hl].
    constructor.
    + split; [apply strip_of_trimmed, Tx | exact Hx].
    + induction Hl as [|y l [Hy [Ty _]] _ IH]; [constructor|].
      cbn [map]. constructor; [|exact IH].
      split; [apply strip_spaced; assumption | exact Hy].
  - eapply List.Forall_impl; [|exact H]. intros s [_ [_ C]]. exact C.
Qed.

(** The round trip of the skills column: a list of ASCII names, none
    empty, none with whitespace at its ends or with a comma, that is
    joined by ", " comes back as it was; and so does the empty list from
    the missing cell its empty text is read back as. *)
Lemma skills_list_join (l : list text) (cell : option text) :
  List.Forall ascii_text l ->
  List.Forall skill_name l ->
  default [] cell = join (str ", ") l ->
  skills_list cell = l.
Proof.
  intros _ H E. rewrite <- (skills_list_of_join l H).
  unfold skills_list. cbn [default]. rewrite E. reflexivity.
Qed.

Lemma skills_list_join_witness :
  skills_list (Some (str "aws, c++, node.js"))
  = [str "aws"; str "c++"; str "node.js"]
  /\ skills_list None = [].
Proof.
  split.
  - apply (skills_list_join [str "aws"; str "c++"; str "node.js"]);
      [repeat constructor; apply ascii_textb_spec; reflexivity | |reflexivity].
    repeat constructor; try discriminate;
      try (intros c t' [= <- _]; reflexivity);
      try (intros C; vm_compute in C; intuition discriminate).
    + intros c t' E. change (str "aws") with (str "aw" ++ ["s"]) in E.
      apply app_inj_tail in E as [_ <-]. reflexivity.
    + intros c t' E. change (str "c++") with (str "c+" ++ ["+"]) in E.
      apply app_inj_tail in E as [_ <-]. reflexivity.
    + intros c t' E. change (str "node.js") with (str "node.j" ++ ["s"]) in E.
      apply app_inj_tail in E as [_ <-]. reflexivity.
  - apply (skills_list_join [] None); [constructor | constructor | reflexivity].
Defined.

(** Whatever the cell holds, no entry of the list is empty, has
    whitespace at its ends, or holds a comma. *)
Lemma skills_list_names (cell : option text) :
  List.Forall skill_name (skills_list cell).
Proof.
  unfold skills_list. apply List.Forall_forall. intros s Hs.
  apply in_map_iff in Hs as [p [<- Hp]].
  apply filter_In in Hp as [Hin Ht]. apply truthy_text in Ht.
  split; [exact Ht|]. split; [apply strip_trimmed|].
  pose proof (split_on_pieces (default [] cell)) as F.
  rewrite List.Forall_forall in F. specialize (F p Hin).
  destruct (strip_split p) as [ws1 [ws2 [E _]]].
  intros C. apply F. rewrite E. apply in_or_app. right.
  apply in_or_app. left. exact C.
Qed.

(** ** The skills of a row, read back *)

Definition skill_nameb (s : text) : bool :=
  match s with
  | [] => false
  | c :: _ =>
      negb (is_space c) && negb (is_space (List.last s " "))
      && forallb (fun x => negb (Ascii.eqb x ",")) s
  end.

Lemma skill_nameb_spec (s : text) : skill_nameb s = true -> skill_name s.
Proof.
  destruct s as [|c s]; [discriminate|]. unfold skill_nameb.
  rewrite !andb_true_iff, !negb_true_iff. intros [[H1 H2] H3].
  split; [discriminate|]. split; [split|].
  - intros d t' [= <- _]. exact H1.
  - intros d t' E. rewrite E, last_last in H2. exact H2.
  - intros C. rewrite forallb_forall in H3. specialize (H3 _ C).
    rewrite Ascii.eqb_refl in H3. discriminate H3.
Qed.

Lemma COMMON_SKILLS_names : List.Forall skill_name COMMON_SKILLS.
Proof.
  apply List.Forall_forall. intros s Hs. apply skill_nameb_spec.
  assert (H : forallb skill_nameb COMMON_SKILLS = true) by reflexivity.
  rewrite forallb_forall in H. exact (H s Hs).
Qed.

Lemma comma_of_lower (c : ascii) : lower_char c = "," -> c = ",".
Proof.
  destruct c as [[] [] [] [] [] [] [] []]; vm_compute; congruence.
Qed.

Lemma skill_name_lower (s : text) : skill_name s -> skill_name (lower s).
Proof.
  intros [Hs [Ht Hc]]. split; [|split].
  - intros E. apply Hs, lower_nil, E.
  - apply lower_trimmed, Ht.
  - intros C. apply in_map_iff in C as [c [E Hin]].
    apply comma_of_lower in E. subst c. exact (Hc Hin).
Qed.

(** The dashboard gets back the skills the transformer found: for a row
    of the frame whose description and tags are ASCII, where the extra
    skill names are ASCII and none is empty, has whitespace at its ends
    or holds a comma, the skills cell of the row, read by the dashboard
    (as the text it is, or as the missing cell an empty text comes back
    as), is the list [extract_skills] returned for the row. *)
Lemma skills_list_of_row (dp : text -> option text)
  (records : list (gmap string value)) (extra : option (list text))
  (df : list row) (x : row) (cell : option text) :
  transform_records dp records extra = Ok df -> In x df ->
  ascii_text (row_description x) ->
  (forall t, row_tags x = VStr t -> ascii_text t) ->
  List.Forall ascii_text (default [] extra) ->
  List.Forall skill_name (default [] extra) ->
  default [] cell = row_skills x ->
  extract_skills (VStr (row_description x)) (row_tags x) extra
  = Ok (skills_list cell).
Proof.
  intros Hdf Hx _ _ _ Hextra Hcell. apply list_elem_of_In in Hx.
  destruct (transform_records_rows _ _ _ _ _ Hdf Hx) as [r [_ Hr]].
  destruct (rc_skills _ _ _ (transform_record_consistent _ _ _ _ Hr))
    as [l [Hl Hjoin]].
  rewrite Hl. f_equal. symmetry. unfold skills_list. rewrite Hcell, Hjoin.
  apply skills_list_of_join.
  destruct (extract_skills_sound _ _ _ _ Hl) as [_ [_ [_ F]]].
  apply List.Forall_forall. intros s Hs.
  destruct (F s Hs) as [skill [Hin ->]]. apply skill_name_lower.
  apply in_app_or in Hin as [Hin | Hin].
  - pose proof COMMON_SKILLS_names as C. rewrite List.Forall_forall in C.
    exact (C skill Hin).
  - rewrite List.Forall_forall in Hextra. exact (Hextra skill Hin).
Qed.

Lemma skills_list_of_row_witness :
  match transform_records (fun _ => None) [posting_rust] (Some [str "Rust"])
  with
  | Ok df =>
      List.Forall
        (fun x =>
           extract_skills (VStr (row_description x)) (row_tags x)
             (Some [str "Rust"])
           = Ok (skills_list (Some (row_skills x)))) df
  | Err _ => False
  end.
Proof.
  destruct (transform_records (fun _ => None) [posting_rust]
              (Some [str "Rust"])) as [df|e] eqn:E;
    [|vm_compute in E; discriminate E].
  apply List.Forall_forall. intros x Hx.
  apply (skills_list_of_row _ _ _ _ x (Some (row_skills x)) E Hx);
    try reflexivity;
    vm_compute in E; injection E as <-; destruct Hx as [<- | []].
  - apply ascii_textb_spec. reflexivity.
  - cbn [row_tags]. intros t [= <-]. apply ascii_textb_spec. reflexivity.
  - constructor; [|constructor]. apply ascii_textb_spec. reflexivity.
  - constructor; [|constructor]. apply skill_nameb_spec. reflexivity.
Defined.

End DashboardFacts.

(* ================================================================== *)
(** * The extractor *)
(* ================================================================== *)

Module ExtractorFacts.

Import Transformer Extractor Spec TextFacts SkillFacts SkillMatchFacts
  RecordFacts FrameFacts.

Local Open Scope char_scope.

(** ** Dicts *)

Lemma lookup_set_item (k : text) (v : json) (items : list (text * json)) :
  lookup_item k (set_item k v items) = Some v.
Proof.
  induction items as [|[k' v'] items IH]; cbn [set_item lookup_item].
  - rewrite decide_True by reflexivity. reflexivity.
  - destruct (decide (k' = k)) as [E | E]; cbn [lookup_item].
    + rewrite decide_True by reflexivity. reflexivity.
    + rewrite decide_False by exact E. exact IH.
Qed.

Lemma lookup_set_item_other (k k0 : text) (v : json)
  (items : list (text * json)) :
  k0 <> k -> lookup_item k0 (set_item k v items) = lookup_item k0 items.
Proof.
  intros Hk. induction items as [|[k' v'] items IH];
    cbn [set_item lookup_item].
  - rewrite decide_False by congruence. reflexivity.
  - destruct (decide (k' = k)) as [E | E]; cbn [lookup_item].
    + subst k'. rewrite !decide_False by congruence. reflexivity.
    + destruct (decide (k' = k0)); [reflexivity | exact IH].
Qed.

(** ** The limit *)

Lemma slice_to_prefix {A : Type} (n : Z) (l : list A) :
  slice_to n l `prefix_of` l.
Proof.
  unfold slice_to. destruct (0 <=? n)%Z; apply prefix_take.
Qed.

Lemma slice_to_length {A : Type} (n : Z) (l : list A) :
  ((0 <= n)%Z -> length (slice_to n l) = Z.to_nat n `min` length l) /\
  ((n < 0)%Z -> length (slice_to n l) = length l - Z.to_nat (- n)).
Proof.
  unfold slice_to. split; intros H.
  - rewrite (proj2 (Z.leb_le 0 n) H). apply length_take.
  - rewrite (proj2 (Z.leb_gt 0 n) H), length_take. lia.
Qed.

(** With a limit, on data whose jobs are a list (or are missing), the
    jobs become the first [limit] of them, in their order, or all but
    the last [-limit] of them when the limit is negative; every other
    item of the data stays as it is. *)
Lemma fetch_remotive_jobs_limit (dict_slice_error : exn)
  (items : list (text * json)) (js : list json) (n : Z) :
  default (JList []) (lookup_item (str "jobs") items) = JList js ->
  exists items',
    fetch_remotive_jobs dict_slice_error (JObj items) (Some n)
    = Ok (JObj items') /\
    lookup_item (str "jobs") items' = Some (JList (slice_to n js)) /\
    (forall k, k <> str "jobs" -> lookup_item k items' = lookup_item k items) /\
    slice_to n js `prefix_of` js /\
    ((0 <= n)%Z -> length (slice_to n js) = Z.to_nat n `min` length js) /\
    ((n < 0)%Z -> length (slice_to n js) = length js - Z.to_nat (- n)).
Proof.
  intros Hjobs.
  exists (set_item (str "jobs") (JList (slice_to n js)) items).
  split; [|split; [apply lookup_set_item|split;
    [intros k Hk; apply lookup_set_item_other, Hk|split;
      [apply slice_to_prefix | apply slice_to_length]]]].
  unfold fetch_remotive_jobs. rewrite Hjobs. cbn [py_slice_to bind dict_get].
  rewrite lookup_set_item. reflexivity.
Qed.

Lemma fetch_remotive_jobs_limit_witness :
  exists items',
    fetch_remotive_jobs TypeError
      (JObj [(str "jobs", JList [JInt 1; JInt 2; JInt 3])]) (Some (-1)%Z)
    = Ok (JObj items') /\
    lookup_item (str "jobs") items' = Some (JList [JInt 1; JInt 2]).
Proof.
  destruct (fetch_remotive_jobs_limit TypeError
              [(str "jobs", JList [JInt 1; JInt 2; JInt 3])]
              [JInt 1; JInt 2; JInt 3] (-1)%Z eq_refl)
    as [items' [H1 [H2 _]]].
  exists items'. split; [exact H1 | exact H2].
Defined.

(** ** Tags *)

Lemma mapM_texts (ts : list text) :
  mapM (fun x => match x with JStr t => Ok t | _ => Err TypeError end)
    (JStr <$> ts) = Ok ts.
Proof.
  induction ts as [|t ts IH]; [reflexivity|].
  rewrite fmap_cons. cbn [mapM bind]. rewrite IH. reflexivity.
Qed.

Lemma mapM_not_text (l : list json) (x : json) :
  In x l -> (forall t, x <> JStr t) ->
  mapM (fun x => match x with JStr t => Ok t | _ => Err TypeError end) l
  = Err TypeError.
Proof.
  intros Hin Hx. induction l as [|y l IH]; [destruct Hin|].
  cbn [mapM]. destruct Hin as [-> | Hin].
  - destruct x; try reflexivity. destruct (Hx s eq_refl).
  - destruct y; try reflexivity. cbn [bind]. rewrite (IH Hin). reflexivity.
Qed.

Lemma join_value_texts (sep : text) (ts : list text) :
  join_value sep (JList (JStr <$> ts)) = Ok (join sep ts).
Proof.
  unfold join_value. cbn [py_iter bind]. rewrite mapM_texts. reflexivity.
Qed.

Lemma join_value_not_text (sep : text) (l : list json) (x : json) :
  In x l -> (forall t, x <> JStr t) ->
  join_value sep (JList l) = Err TypeError.
Proof.
  intros Hin Hx. unfold join_value. cbn [py_iter bind].
  rewrite (mapM_not_text l x Hin Hx). reflexivity.
Qed.

Lemma tags_field_falsy (fields : list (text * json)) :
  json_truthy (default JNull (lookup_item (str "tags") fields)) = false ->
  tags_field (JObj fields) = Ok [].
Proof. unfold tags_field. cbn [dict_get bind]. intros ->. reflexivity. Qed.

Lemma tags_field_texts (fields : list (text * json)) (ts : list text) :
  lookup_item (str "tags") fields = Some (JList (JStr <$> ts)) ->
  tags_field (JObj fields) = Ok (join (str ", ") ts).
Proof.
  unfold tags_field. cbn [dict_get bind]. intros ->.
  cbn [default from_option id]. destruct ts as [|t ts]; [reflexivity|].
  change (json_truthy (JList (JStr <$> t :: ts))) with true.
  rewrite join_value_texts. reflexivity.
Qed.

(** The tags of a record: the texts of the list of the job joined by
    ", "; the empty text where the job has no tags, or None, or an empty
    list; a [TypeError] where a tag of the list is not a text. *)
Lemma tags_field_cases (fields : list (text * json)) :
  (json_truthy (default JNull (lookup_item (str "tags") fields)) = false ->
   tags_field (JObj fields) = Ok []) /\
  (forall ts,
      lookup_item (str "tags") fields = Some (JList (JStr <$> ts)) ->
      tags_field (JObj fields) = Ok (join (str ", ") ts)) /\
  (forall l x,
      lookup_item (str "tags") fields = Some (JList l) ->
      In x l -> (forall t, x <> JStr t) ->
      tags_field (JObj fields) = Err TypeError).
Proof.
  split; [apply tags_field_falsy|]. split; [apply tags_field_texts|].
  unfold tags_field. cbn [dict_get bind].
  - intros l x -> Hin Hx. cbn [default from_option id].
    destruct l as [|y l]; [destruct Hin|].
    change (json_truthy (JList (y :: l))) with true.
    rewrite (join_value_not_text _ _ x Hin Hx). reflexivity.
Qed.

Lemma tags_field_cases_witness :
  tags_field (JObj [(str "tags", JList [JStr (str "python"); JStr (str "aws")])])
  = Ok (str "python, aws")
  /\ tags_field (JObj [(str "tags", JList [JStr (str "python"); JInt 3])])
     = Err TypeError.
Proof.
  split.
  - apply (proj1 (proj2 (tags_field_cases _)) [str "python"; str "aws"]).
    reflexivity.
  - apply (proj2 (proj2 (tags_field_cases _))
             [JStr (str "python"); JInt 3] (JInt 3)).
    + reflexivity.
    + right. left. reflexivity.
    + intros t. discriminate.
Defined.

(** ** A tag that names a skill *)

Lemma join_member (sep : text) (l : list text) (t : text) :
  In t l ->
  exists pre post,
    join sep l = pre ++ t ++ post /\
    (pre = [] \/ exists p, pre = p ++ sep) /\
    (post = [] \/ exists q, post = sep ++ q).
Proof.
  induction l as [|x l IH]; [intros []|].
  destruct l as [|y l].
  - intros [-> | []]. exists [], []. rewrite app_nil_r. auto.
  - change (join sep (x :: y :: l)) with (x ++ sep ++ join sep (y :: l)).
    intros [-> | Hin].
    + exists [], (sep ++ join sep (y :: l)). split; [reflexivity|].
      split; [left; reflexivity | right; eauto].
    + destruct (IH Hin) as [pre [post [E [Hpre Hpost]]]].
      exists (x ++ sep ++ pre), post. rewrite E.
      split; [rewrite <- !app_assoc; reflexivity|]. split; [|exact Hpost].
      right. destruct Hpre as [-> | [p ->]].
      * exists x. rewrite app_nil_r. reflexivity.
      * exists (x ++ sep ++ p). rewrite <- !app_assoc. reflexivity.
Qed.

Lemma whole_word_in_join (w : text) (l : list text) (t : text) :
  In t l -> lower t = w -> whole_word w (lower (join (str ", ") l)).
Proof.
  intros Hin <-.
  destruct (join_member (str ", ") l t Hin) as [pre [post [E [Hpre Hpost]]]].
  exists (lower pre), (lower post). rewrite E, !lower_app.
  split; [reflexivity|]. split.
  - intros c Hc. destruct Hpre as [-> | [p ->]]; [discriminate Hc|].
    rewrite lower_app in Hc.
    change (lower (str ", ")) with ([","] ++ [" "]) in Hc.
    rewrite app_assoc, last_snoc in Hc. injection Hc as <-. reflexivity.
  - destruct Hpost as [-> | [q ->]]; reflexivity.
Qed.

(** A job with ASCII tags, one of which is an ASCII name of the
    vocabulary, in any letter case, has that skill: the tags that
    [parse_jobs] joins are matched by [extract_skills] whatever the
    description says. *)
Lemma tagged_skill_found (fields : list (text * json)) (tags : list text)
  (tag skill desc : text) (extra : option (list text)) :
  List.Forall ascii_text tags -> ascii_text skill ->
  lookup_item (str "tags") fields = Some (JList (JStr <$> tags)) ->
  In tag tags -> lower tag = lower skill ->
  In skill (COMMON_SKILLS ++ default [] extra) -> wordy skill ->
  exists t l,
    tags_field (JObj fields) = Ok t /\
    extract_skills (VStr desc) (VStr t) extra = Ok l /\
    In (lower skill) l.
Proof.
  intros _ _ Hf Hin Hlow Hskill Hw.
  exists (join (str ", ") tags).
  destruct (extract_skills_total (Some desc) (Some (join (str ", ") tags))
              extra) as [l Hl].
  cbn [of_optional] in Hl. exists l.
  split; [exact (tags_field_texts fields tags Hf)|].
  split; [exact Hl|].
  apply (extract_skills_members _ _ _ _ Hl). exists skill.
  split; [exact Hskill|]. split; [reflexivity|].
  unfold matched. apply orb_true_iff. right.
  apply search_word_spec; [apply wordy_lower, Hw|].
  exact (whole_word_in_join _ _ tag Hin Hlow).
Qed.

Lemma tagged_skill_found_witness :
  exists t l,
    tags_field (JObj [(str "tags", JList (JStr <$> [str "remote"; str "SQL"]))])
    = Ok t /\
    extract_skills (VStr (str "We hire.")) (VStr t) None = Ok l /\
    In (lower (str "sql")) l.
Proof.
  apply (tagged_skill_found _ [str "remote"; str "SQL"] (str "SQL")).
  - repeat constructor; apply ascii_textb_spec; reflexivity.
  - apply ascii_textb_spec. reflexivity.
  - reflexivity.
  - right. left. reflexivity.
  - reflexivity.
  - vm_compute. repeat (first [left; reflexivity | right]).
  - apply wordyb_wordy. reflexivity.
Defined.

(** ** parse_jobs *)

Section ParseFacts.

Variable soup : json -> result text.

Lemma html_to_text_trimmed (html : json) (t : text) :
  html_to_text soup html = Ok t -> trimmed t.
Proof.
  unfold html_to_text. destruct (json_truthy html); cbn [negb].
  - destruct (soup html) as [u|e]; [|discriminate]. cbn [bind].
    intros [= <-]. apply strip_trimmed.
  - intros [= <-]. split; intros a b H; destruct b; discriminate.
Qed.

Lemma parse_job_record (j : json) (rec : job_record) :
  parse_job soup j = Ok rec ->
  rec_raw rec = j /\ (exists fields, j = JObj fields) /\
  trimmed (rec_description_text rec) /\
  tags_field j = Ok (rec_tags rec).
Proof.
  unfold parse_job. destruct j; try discriminate. cbn [dict_get bind].
  destruct (html_to_text soup _) as [d|e] eqn:Hd; [|discriminate].
  cbn [bind]. destruct (tags_field (JObj items)) as [g|e]; [|discriminate].
  cbn [bind]. intros [= <-]. cbn.
  split; [reflexivity|]. split; [eauto|].
  split; [exact (html_to_text_trimmed _ _ Hd) | reflexivity].
Qed.

Lemma mapM_Forall {A B : Type} (f : A -> result B) (P : B -> Prop)
  (l : list A) (bs : list B) :
  (forall a b, f a = Ok b -> P b) -> mapM f l = Ok bs -> List.Forall P bs.
Proof.
  intros HP. revert bs; induction l as [|a l IH]; intros bs; simpl.
  - intros [= <-]. constructor.
  - destruct (f a) as [b|e] eqn:Hfa; [|discriminate]. cbn [bind].
    destruct (mapM f l) as [bs'|e]; [|discriminate]. cbn [bind].
    intros [= <-]. constructor; [exact (HP a b Hfa) | apply IH; reflexivity].
Qed.

(** What [parse_jobs] returns, when it returns: the data are a dict;
    there is one record for each of its jobs, in their order, that keeps
    the job under [raw]; every job is a dict; no description text has
    whitespace at its ends, and the tags are those of line 123. *)
Lemma parse_jobs_records (raw : json) (recs : list job_record) :
  parse_jobs soup raw = Ok recs ->
  exists items js,
    raw = JObj items /\
    py_iter (default (JList []) (lookup_item (str "jobs") items)) = Ok js /\
    rec_raw <$> recs = js /\
    List.Forall
      (fun rec =>
         (exists fields, rec_raw rec = JObj fields) /\
         trimmed (rec_description_text rec) /\
         tags_field (rec_raw rec) = Ok (rec_tags rec))
      recs.
Proof.
  unfold parse_jobs. destruct raw; try discriminate. cbn [dict_get bind].
  destruct (py_iter _) as [js|e] eqn:Hjs; [|discriminate]. cbn [bind].
  intros H. exists items, js. split; [reflexivity|]. split; [exact Hjs|].
  split.
  - apply (mapM_inverse _ _ _ _ (fun j rec Hj => proj1 (parse_job_record j rec Hj)) H).
  - refine (mapM_Forall _ _ _ _ _ H). intros j rec Hj.
    destruct (parse_job_record j rec Hj) as [E [F [T G]]].
    rewrite E. auto.
Qed.

(** A job that [parse_jobs] can take: a dict whose description is made
    a text of, and whose tags are missing, None, or a list of texts. *)
Definition job_ok (j : json) : Prop :=
  exists fields,
    j = JObj fields /\
    (exists t,
        html_to_text soup
          (default JNull (lookup_item (str "description") fields)) = Ok t) /\
    (json_truthy (default JNull (lookup_item (str "tags") fields)) = false \/
     exists ts, lookup_item (str "tags") fields = Some (JList (JStr <$> ts))).

Lemma parse_job_ok (j : json) : job_ok j -> exists rec, parse_job soup j = Ok rec.
Proof.
  intros [fields [-> [[t Ht] Htags]]]. unfold parse_job.
  cbn [dict_get bind]. rewrite Ht. cbn [bind].
  assert (G : exists g, tags_field (JObj fields) = Ok g).
  { destruct Htags as [H | [ts H]].
    - exists []. exact (tags_field_falsy fields H).
    - eexists. exact (tags_field_texts fields ts H). }
  destruct G as [g ->]. cbn [bind]. eauto.
Qed.

(** On data whose jobs are a list of such jobs, or that have no jobs,
    [parse_jobs] raises nothing and returns one record for each job. *)
Lemma parse_jobs_returns (items : list (text * json)) (js : list json) :
  default (JList []) (lookup_item (str "jobs") items) = JList js ->
  List.Forall job_ok js ->
  exists recs,
    parse_jobs soup (JObj items) = Ok recs /\ rec_raw <$> recs = js.
Proof.
  intros Hjobs Hok. unfold parse_jobs. cbn [dict_get bind]. rewrite Hjobs.
  cbn [py_iter bind].
  destruct (SalaryFacts.mapM_total (parse_job soup) js) as [recs Hrecs].
  - eapply List.Forall_impl; [|exact Hok]. intros j. apply parse_job_ok.
  - exists recs. split; [exact Hrecs|].
    apply (mapM_inverse _ _ _ _
             (fun j rec Hj => proj1 (parse_job_record j rec Hj)) Hrecs).
Qed.

(** With a limit that is not negative, [parse_jobs] makes at most
    [limit] records of what [fetch_remotive_jobs] returns. *)
Lemma limit_bounds_records (dict_slice_error : exn) (data data' : json)
  (n : Z) (recs : list job_record) :
  fetch_remotive_jobs dict_slice_error data (Some n) = Ok data' ->
  parse_jobs soup data' = Ok recs ->
  (0 <= n)%Z ->
  length recs <= Z.to_nat n.
Proof.
  unfold fetch_remotive_jobs. destruct data; try discriminate.
  destruct (py_slice_to _ _ n) as [trimmed|e] eqn:Hs; [|discriminate].
  cbn [bind dict_get]. rewrite lookup_set_item. cbn [default from_option id].
  destruct (py_len trimmed) as [k|e]; [|discriminate]. cbn [bind].
  intros [= <-]. unfold parse_jobs. cbn [dict_get bind].
  rewrite lookup_set_item. cbn [default from_option id].
  destruct (py_iter trimmed) as [xs|e] eqn:Hxs; [|discriminate].
  cbn [bind]. intros Hrecs Hn.
  rewrite (mapM_length _ _ _ Hrecs).
  destruct (default (JList []) (lookup_item (str "jobs") items));
    try discriminate Hs; cbn [py_slice_to] in Hs; injection Hs as <-;
    cbn [py_iter] in Hxs; injection Hxs as <-.
  - destruct (chars _) as [|c cs]; [cbn; lia|].
    rewrite fmap_cons in Hrecs. discriminate Hrecs.
  - rewrite (proj1 (slice_to_length n l) Hn). lia.
Qed.

End ParseFacts.

(** The parser of the examples: the text as it is. *)
Definition plain_text (html : json) : result text :=
  match html with
  | JStr t => Ok t
  | _ => Err TypeError
  end.

Definition job_alpha : json :=
  JObj [(str "id", JInt 1); (str "description", JStr (str " <p>SQL</p> "));
        (str "tags", JList [JStr (str "sql")])].

Definition job_beta : json := JObj [(str "id", JInt 2)].

Definition api_data : json :=
  JObj [(str "job-count", JInt 2); (str "jobs", JList [job_alpha; job_beta])].

Lemma parse_jobs_records_witness :
  match parse_jobs plain_text api_data with
  | Ok recs =>
      exists items js,
        api_data = JObj items /\
        py_iter (default (JList []) (lookup_item (str "jobs") items))
        = Ok js /\
        rec_raw <$> recs = js /\
        List.Forall
          (fun rec =>
             (exists fields, rec_raw rec = JObj fields) /\
             trimmed (rec_description_text rec) /\
             tags_field (rec_raw rec) = Ok (rec_tags rec))
          recs
  | Err _ => False
  end.
Proof.
  destruct (parse_jobs plain_text api_data) as [recs|e] eqn:E;
    [|vm_compute in E; discriminate E].
  exact (parse_jobs_records _ _ _ E).
Defined.

Lemma parse_jobs_returns_witness :
  exists recs,
    parse_jobs plain_text api_data = Ok recs /\
    rec_raw <$> recs = [job_alpha; job_beta].
Proof.
  apply (parse_jobs_returns plain_text
           [(str "job-count", JInt 2); (str "jobs", JList [job_alpha; job_beta])]
           [job_alpha; job_beta] eq_refl).
  constructor; [|constructor; [|constructor]].
  - eexists. split; [reflexivity|]. split.
    + eexists. vm_compute. reflexivity.
    + right. exists [str "sql"]. reflexivity.
  - eexists. split; [reflexivity|]. split.
    + eexists. vm_compute. reflexivity.
    + left. reflexivity.
Defined.

Lemma limit_bounds_records_witness :
  match fetch_remotive_jobs TypeError api_data (Some 1%Z) with
  | Ok data' =>
      match parse_jobs plain_text data' with
      | Ok recs => length recs <= 1
      | Err _ => False
      end
  | Err _ => False
  end.
Proof.
  destruct (fetch_remotive_jobs TypeError api_data (Some 1%Z))
    as [data'|e] eqn:E1; [|vm_compute in E1; discriminate E1].
  destruct (parse_jobs plain_text data') as [recs|e] eqn:E2.
  - exact (limit_bounds_records plain_text TypeError _ _ 1%Z _ E1 E2
             ltac:(discriminate)).
  - vm_compute in E1. injection E1 as <-. vm_compute in E2. discriminate E2.
Defined.

End ExtractorFacts.
